(** * LendingProtocol: a collateralised lending ledger

    Shallow embedding of the Solidity contract [LendingProtocol]
    (pragma solidity ^0.8.28) and verification of its specification.

    - [uint256] values are [N] with the checked arithmetic of Solidity 0.8
      written out: an overflowing [+] or [*] and an underflowing [-] abort
      the call with an arithmetic panic; the contract divides by non-zero
      constants only.
    - the [mapping(address => UserPosition)] is a [gmap] read with the
      all-zero default.
    - contract code runs in a state-and-revert monad; the transaction
      boundary [call] discards every write of a reverted call.
    - the modelled tokens never call back into the contract, so the
      [nonReentrant] modifier has no effect and is left out; events are
      not modelled. *)

From Stdlib Require Import NArith Lia.
From stdpp Require Import base option gmap strings.

Local Open Scope N_scope.

(** ** Checked [uint256] arithmetic *)

Module Uint256.

Definition MAX : N := 2 ^ 256 - 1.

Definition add (a b : N) : option N :=
  if a + b <=? MAX then Some (a + b) else None.

Definition sub (a b : N) : option N :=
  if b <=? a then Some (a - b) else None.

Definition mul (a b : N) : option N :=
  if a * b <=? MAX then Some (a * b) else None.

End Uint256.

Definition address := N.

(** ** The two ERC-20 tokens *)

Module IERC20.

(** Modelled from the spec: the contracts [CollateralToken] and
    [LoanToken] behind the [IERC20] interface are not among the sources.
    The spec's ValueTransfer collaborator "moves collateral/loan value
    between participant and reserve, reporting success/failure", and a
    transfer from a participant fails on "insufficient balance/approval".
    [pool] is [balanceOf(address(this))], the balance held by the lending
    contract; [balances] are the participants' own balances and
    [allowances] what each participant approved the lending contract to
    pull.  The lending contract never calls its own external functions,
    so it is never one of the participants.  A token keeps its total
    supply within [uint256], so crediting a balance cannot wrap; balances
    are unbounded here.  A transfer that cannot be made reverts inside
    the token: the repository builds on OpenZeppelin 5 (the
    [Ownable(initialOwner)] constructor, [utils/ReentrancyGuard.sol], the
    [OwnableUnauthorizedAccount] error its tests expect of both tokens),
    whose ERC-20 reverts rather than returns [false], and the tests expect
    of such calls only that they revert. *)
Record Token := mkToken {
  pool : N;
  balances : gmap address N;
  allowances : gmap address N
}.

Definition balanceOf (t : Token) (a : address) : N :=
  default 0 (balances t !! a).

Definition allowance (t : Token) (a : address) : N :=
  default 0 (allowances t !! a).

(** The token after [amount] left the pool for [to]. *)
Definition paid_out (to : address) (amount : N) (t : Token) : Token :=
  {| pool := pool t - amount;
     balances := <[to := balanceOf t to + amount]> (balances t);
     allowances := allowances t |}.

(** The token after [amount] of [from]'s balance and allowance entered
    the pool. *)
Definition pulled_in (from : address) (amount : N) (t : Token) : Token :=
  {| pool := pool t + amount;
     balances := <[from := balanceOf t from - amount]> (balances t);
     allowances := <[from := allowance t from - amount]> (allowances t) |}.

(** What an external call into a token can come back with: it made the
    transfer and returned [true], it returned [false], or it reverted. *)
Inductive reply :=
| Transferred (t : Token)
| ReturnedFalse
| Reverted.

(** [token.transfer(to, amount)] called by the lending contract. *)
Definition transfer (to : address) (amount : N) (t : Token) : reply :=
  if amount <=? pool t then Transferred (paid_out to amount t) else Reverted.

(** [token.transferFrom(from, address(this), amount)] called by the
    lending contract. *)
Definition transferFrom (from : address) (amount : N) (t : Token) : reply :=
  if (amount <=? balanceOf t from) && (amount <=? allowance t from)
  then Transferred (pulled_in from amount t) else Reverted.

End IERC20.

(** ** Contract storage *)

Record UserPosition := mkPosition {
  collateralAmount : N;
  loanAmount : N;
  lastInterestUpdate : N;
  accumulatedInterest : N
}.

Definition zero_position : UserPosition := mkPosition 0 0 0 0.

Record State := mkState {
  userPositions : gmap address UserPosition;
  collateralToken : IERC20.Token;
  loanToken : IERC20.Token;
  owner : address
}.

(** What a call sees of its transaction: [msg.sender] and
    [block.timestamp]. *)
Record Env := mkEnv {
  msg_sender : address;
  block_timestamp : N
}.

(** ** Reverts *)

Inductive error :=
| Error (reason : string)            (* require(cond, reason) failed *)
| Panic                              (* checked arithmetic, Panic(0x11) *)
| OwnableUnauthorizedAccount         (* onlyOwner *)
| TokenReverted.                     (* a token call reverted; its error propagates *)

(** The failure kinds of the specification are the contract's revert
    reasons. *)
Definition InvalidAmount := Error "Amount must be greater than 0".
Definition NoCollateral := Error "No collateral deposited".
Definition ExceedsCapacity := Error "Exceeds borrowing capacity".
Definition InsufficientReserve := Error "Insufficient loan tokens in contract".
Definition NoActiveLoan := Error "No active loan".
Definition NoCollateralToWithdraw := Error "No collateral to withdraw".
Definition ActiveDebt := Error "Cannot withdraw with active debt".

(** ** The execution monad

    A computation threads the state; [Revert] keeps the state as it was
    written up to the failing statement ([dirty]), which only [call]
    throws away. *)

Inductive result (A : Type) :=
| Ok (a : A) (s : State)
| Revert (e : error) (dirty : State).

Arguments Ok {A} a s.
Arguments Revert {A} e dirty.

Definition M (A : Type) : Type := State -> result A.

Global Instance M_ret : MRet M := fun A a s => Ok a s.

Global Instance M_bind : MBind M := fun A B f m s =>
  match m s with
  | Ok a s' => f a s'
  | Revert e d => Revert e d
  end.

Definition revert {A} (e : error) : M A := fun s => Revert e s.

Definition require (cond : bool) (reason : string) : M unit :=
  if cond then mret tt else revert (Error reason).

(** A checked arithmetic step. *)
Definition checked (o : option N) : M N :=
  match o with
  | Some n => mret n
  | None => revert Panic
  end.

Definition position_of (s : State) (user : address) : UserPosition :=
  default zero_position (userPositions s !! user).

(** The state with the record of [user] replaced. *)
Definition update_position (s : State) (user : address) (p : UserPosition)
  : State :=
  {| userPositions := <[user := p]> (userPositions s);
     collateralToken := collateralToken s;
     loanToken := loanToken s;
     owner := owner s |}.

Definition set_collateralToken (s : State) (t : IERC20.Token) : State :=
  {| userPositions := userPositions s;
     collateralToken := t;
     loanToken := loanToken s;
     owner := owner s |}.

Definition set_loanToken (s : State) (t : IERC20.Token) : State :=
  {| userPositions := userPositions s;
     collateralToken := collateralToken s;
     loanToken := t;
     owner := owner s |}.

(** Read through a storage pointer [userPositions[user]]. *)
Definition load (user : address) : M UserPosition :=
  fun s => Ok (position_of s user) s.

(** Assignment to one field through the storage pointer. *)
Definition store (user : address) (f : UserPosition -> UserPosition) : M unit :=
  fun s => Ok tt (update_position s user (f (position_of s user))).

Definition set_collateralAmount (v : N) (p : UserPosition) : UserPosition :=
  {| collateralAmount := v;
     loanAmount := loanAmount p;
     lastInterestUpdate := lastInterestUpdate p;
     accumulatedInterest := accumulatedInterest p |}.

Definition set_loanAmount (v : N) (p : UserPosition) : UserPosition :=
  {| collateralAmount := collateralAmount p;
     loanAmount := v;
     lastInterestUpdate := lastInterestUpdate p;
     accumulatedInterest := accumulatedInterest p |}.

Definition set_lastInterestUpdate (v : N) (p : UserPosition) : UserPosition :=
  {| collateralAmount := collateralAmount p;
     loanAmount := loanAmount p;
     lastInterestUpdate := v;
     accumulatedInterest := accumulatedInterest p |}.

Definition set_accumulatedInterest (v : N) (p : UserPosition) : UserPosition :=
  {| collateralAmount := collateralAmount p;
     loanAmount := loanAmount p;
     lastInterestUpdate := lastInterestUpdate p;
     accumulatedInterest := v |}.

(** [require(token.f(...), reason)] for the two tokens: a token that
    reverts takes the whole call down with its own error, one that returns
    [false] makes the [require] fail with [reason]. *)
Definition collateral_call (f : IERC20.Token -> IERC20.reply)
  (reason : string) : M unit :=
  fun s => match f (collateralToken s) with
           | IERC20.Transferred t => Ok tt (set_collateralToken s t)
           | IERC20.ReturnedFalse => Revert (Error reason) s
           | IERC20.Reverted => Revert TokenReverted s
           end.

Definition loan_call (f : IERC20.Token -> IERC20.reply)
  (reason : string) : M unit :=
  fun s => match f (loanToken s) with
           | IERC20.Transferred t => Ok tt (set_loanToken s t)
           | IERC20.ReturnedFalse => Revert (Error reason) s
           | IERC20.Reverted => Revert TokenReverted s
           end.

(** [loanToken.balanceOf(address(this))]. *)
Definition loan_reserve : M N := fun s => Ok (IERC20.pool (loanToken s)) s.

Definition onlyOwner (env : Env) : M unit :=
  fun s => if msg_sender env =? owner s then Ok tt s
           else Revert OwnableUnauthorizedAccount s.

Arguments position_of : simpl never.
Arguments update_position : simpl never.
Arguments set_collateralToken : simpl never.
Arguments set_loanToken : simpl never.
Arguments load : simpl never.
Arguments store : simpl never.
Arguments require : simpl never.
Arguments collateral_call : simpl never.
Arguments loan_call : simpl never.
Arguments loan_reserve : simpl never.
Arguments onlyOwner : simpl never.

(** ** The contract *)

Module LendingProtocol.

Definition COLLATERALIZATION_RATIO : N := 150.
Definition INTEREST_RATE : N := 5.
Definition PRECISION : N := 100.
(** The literal [7 * 24 * 60 * 60] of the source. *)
Definition WEEK : N := 7 * 24 * 60 * 60.

Definition _updateInterest (env : Env) (user : address) : M unit :=
  position ← load user;
  if (0 <? loanAmount position) && (0 <? lastInterestUpdate position) then
    timeElapsed ← checked (Uint256.sub (block_timestamp env)
                                        (lastInterestUpdate position));
    let weeksElapsed := timeElapsed / WEEK in
    if 0 <? weeksElapsed then
      x ← checked (Uint256.mul (loanAmount position) INTEREST_RATE);
      y ← checked (Uint256.mul x weeksElapsed);
      let newInterest := y / PRECISION in
      acc ← checked (Uint256.add (accumulatedInterest position) newInterest);
      store user (set_accumulatedInterest acc);;
      store user (set_lastInterestUpdate (block_timestamp env))
    else mret tt
  else mret tt.

Definition depositCollateral (env : Env) (amount : N) : M unit :=
  require (0 <? amount) "Amount must be greater than 0";;
  collateral_call (IERC20.transferFrom (msg_sender env) amount)
                  "Collateral transfer failed";;
  position ← load (msg_sender env);
  c ← checked (Uint256.add (collateralAmount position) amount);
  store (msg_sender env) (set_collateralAmount c).

Definition borrow (env : Env) (amount : N) : M unit :=
  require (0 <? amount) "Amount must be greater than 0";;
  position ← load (msg_sender env);
  require (0 <? collateralAmount position) "No collateral deposited";;
  _updateInterest env (msg_sender env);;
  position ← load (msg_sender env);
  scaled ← checked (Uint256.mul (collateralAmount position) PRECISION);
  let maxBorrowable := scaled / COLLATERALIZATION_RATIO in
  currentDebt ← checked (Uint256.add (loanAmount position)
                                      (accumulatedInterest position));
  requested ← checked (Uint256.add currentDebt amount);
  require (requested <=? maxBorrowable) "Exceeds borrowing capacity";;
  reserve ← loan_reserve;
  require (amount <=? reserve) "Insufficient loan tokens in contract";;
  l ← checked (Uint256.add (loanAmount position) amount);
  store (msg_sender env) (set_loanAmount l);;
  store (msg_sender env) (set_lastInterestUpdate (block_timestamp env));;
  loan_call (IERC20.transfer (msg_sender env) amount) "Loan transfer failed".

Definition repay (env : Env) : M unit :=
  position ← load (msg_sender env);
  require (0 <? loanAmount position) "No active loan";;
  _updateInterest env (msg_sender env);;
  position ← load (msg_sender env);
  totalDebt ← checked (Uint256.add (loanAmount position)
                                    (accumulatedInterest position));
  loan_call (IERC20.transferFrom (msg_sender env) totalDebt)
            "Repayment transfer failed";;
  store (msg_sender env) (set_loanAmount 0);;
  store (msg_sender env) (set_accumulatedInterest 0);;
  store (msg_sender env) (set_lastInterestUpdate 0).

Definition withdrawCollateral (env : Env) : M unit :=
  position ← load (msg_sender env);
  require (0 <? collateralAmount position) "No collateral to withdraw";;
  (if 0 <? loanAmount position
   then _updateInterest env (msg_sender env)
   else mret tt);;
  position ← load (msg_sender env);
  currentDebt ← checked (Uint256.add (loanAmount position)
                                      (accumulatedInterest position));
  require (currentDebt =? 0) "Cannot withdraw with active debt";;
  let collateralAmount_ := collateralAmount position in
  store (msg_sender env) (set_collateralAmount 0);;
  collateral_call (IERC20.transfer (msg_sender env) collateralAmount_)
                  "Collateral withdrawal failed".

(** A [view] function: it works on a memory copy of the position. *)
Definition getUserData (env : Env) (user : address) : M (N * N * N) :=
  position ← load user;
  let collateral := collateralAmount position in
  let debt := loanAmount position in
  let interest := accumulatedInterest position in
  if (0 <? loanAmount position) && (0 <? lastInterestUpdate position) then
    timeElapsed ← checked (Uint256.sub (block_timestamp env)
                                        (lastInterestUpdate position));
    let weeksElapsed := timeElapsed / WEEK in
    if 0 <? weeksElapsed then
      x ← checked (Uint256.mul (loanAmount position) INTEREST_RATE);
      y ← checked (Uint256.mul x weeksElapsed);
      let newInterest := y / PRECISION in
      interest' ← checked (Uint256.add interest newInterest);
      mret (collateral, debt, interest')
    else mret (collateral, debt, interest)
  else mret (collateral, debt, interest).

Definition fundContract (env : Env) (amount : N) : M unit :=
  onlyOwner env;;
  loan_call (IERC20.transferFrom (msg_sender env) amount)
            "Funding transfer failed".

Definition withdrawExcess (env : Env) (amount : N) : M unit :=
  onlyOwner env;;
  loan_call (IERC20.transfer (msg_sender env) amount) "Withdrawal failed".

End LendingProtocol.

Import LendingProtocol.

(** ** Transactions *)

Inductive receipt :=
| Success
| Failure (e : error).

(** An external call is one transaction: a revert restores the state the
    call started from. *)
Definition call {A} (m : M A) (s : State) : State * receipt :=
  match m s with
  | Ok _ s' => (s', Success)
  | Revert e _ => (s, Failure e)
  end.

Inductive Op :=
| DepositCollateral (amount : N)
| Borrow (amount : N)
| Repay
| WithdrawCollateral
| FundContract (amount : N)
| WithdrawExcess (amount : N).

Definition exec (env : Env) (op : Op) : M unit :=
  match op with
  | DepositCollateral amount => depositCollateral env amount
  | Borrow amount => borrow env amount
  | Repay => repay env
  | WithdrawCollateral => withdrawCollateral env
  | FundContract amount => fundContract env amount
  | WithdrawExcess amount => withdrawExcess env amount
  end.

Definition step (env : Env) (op : Op) (s : State) : State :=
  fst (call (exec env op) s).

(** States reached from a ledger without positions by transactions whose
    timestamps never decrease; the index is the time of the last one. *)
Inductive reachable : N -> State -> Prop :=
| reachable_init s :
    userPositions s = ∅ -> reachable 0 s
| reachable_step t s env op :
    reachable t s -> t <= block_timestamp env ->
    reachable (block_timestamp env) (step env op s).

(** ** Vocabulary of the statements *)

(** Interest on [principal] for [weeks] whole periods. *)
Definition newInterest (principal weeks : N) : N :=
  principal * INTEREST_RATE * weeks / PRECISION.

(** Whole periods between the last accrual of [p] and [now]. *)
Definition weeksElapsed (p : UserPosition) (now : N) : N :=
  (now - lastInterestUpdate p) / WEEK.

(** The position after [weeks] periods were folded into it at [now]. *)
Definition accrued (p : UserPosition) (now weeks : N) : UserPosition :=
  {| collateralAmount := collateralAmount p;
     loanAmount := loanAmount p;
     lastInterestUpdate := now;
     accumulatedInterest := accumulatedInterest p + newInterest (loanAmount p) weeks |}.

Definition debt (p : UserPosition) : N :=
  loanAmount p + accumulatedInterest p.

Definition maxBorrowable (p : UserPosition) : N :=
  collateralAmount p * PRECISION / COLLATERALIZATION_RATIO.

(** The invariant of the data model: without principal there is neither
    interest nor an accrual time. *)
Definition settled (p : UserPosition) : Prop :=
  loanAmount p = 0 -> accumulatedInterest p = 0 /\ lastInterestUpdate p = 0.

Definition all_settled (s : State) : Prop :=
  forall user, settled (position_of s user).

(** What a failing call had written when it failed: nothing; the accrual
    of the caller's interest; the collateral tokens pulled in by a
    deposit; or the collateral zeroed by a withdrawal. *)
Definition written_before_failure (env : Env) (op : Op) (s dirty : State)
  : Prop :=
  dirty = s \/
  _updateInterest env (msg_sender env) s = Ok tt dirty \/
  (exists amount,
     op = DepositCollateral amount /\
     dirty = set_collateralToken s
               (IERC20.pulled_in (msg_sender env) amount (collateralToken s))) \/
  (op = WithdrawCollateral /\
   dirty = update_position s (msg_sender env)
             (set_collateralAmount 0 (position_of s (msg_sender env)))).

(** The three ways [_updateInterest] can end. *)
Inductive accrual_outcome (env : Env) (user : address) (s : State) : Prop :=
| accrual_skipped :
    let p := position_of s user in
    loanAmount p = 0 \/ lastInterestUpdate p = 0 \/
      (lastInterestUpdate p <= block_timestamp env /\
       weeksElapsed p (block_timestamp env) = 0) ->
    _updateInterest env user s = Ok tt s ->
    accrual_outcome env user s
| accrual_applied :
    let p := position_of s user in
    let k := weeksElapsed p (block_timestamp env) in
    0 < loanAmount p -> 0 < lastInterestUpdate p ->
    lastInterestUpdate p <= block_timestamp env -> 0 < k ->
    loanAmount p * INTEREST_RATE * k <= Uint256.MAX ->
    accumulatedInterest p + newInterest (loanAmount p) k <= Uint256.MAX ->
    _updateInterest env user s =
      Ok tt (update_position s user (accrued p (block_timestamp env) k)) ->
    accrual_outcome env user s
| accrual_panicked :
    let p := position_of s user in
    let k := weeksElapsed p (block_timestamp env) in
    0 < loanAmount p -> 0 < lastInterestUpdate p ->
    block_timestamp env < lastInterestUpdate p \/
      (0 < k /\ (Uint256.MAX < loanAmount p * INTEREST_RATE * k \/
                 Uint256.MAX < accumulatedInterest p + newInterest (loanAmount p) k)) ->
    _updateInterest env user s = Revert Panic s ->
    accrual_outcome env user s.

(** ** Outcomes of [borrow] *)

(** The position after a draw of [amount] at [now]. *)
Definition drawn (p : UserPosition) (now amount : N) : UserPosition :=
  {| collateralAmount := collateralAmount p;
     loanAmount := loanAmount p + amount;
     lastInterestUpdate := now;
     accumulatedInterest := accumulatedInterest p |}.

(** The state after a draw of [amount] on the accrued state [s1]. *)
Definition borrowed (s1 : State) (env : Env) (amount : N) : State :=
  set_loanToken
    (update_position s1 (msg_sender env)
       (drawn (position_of s1 (msg_sender env)) (block_timestamp env) amount))
    (IERC20.paid_out (msg_sender env) amount (loanToken s1)).

Inductive borrow_outcome (env : Env) (amount : N) (s : State) : Prop :=
| borrow_invalid_amount :
    amount = 0 ->
    borrow env amount s = Revert InvalidAmount s ->
    borrow_outcome env amount s
| borrow_no_collateral :
    0 < amount ->
    collateralAmount (position_of s (msg_sender env)) = 0 ->
    borrow env amount s = Revert NoCollateral s ->
    borrow_outcome env amount s
| borrow_accrual_panic :
    0 < amount ->
    0 < collateralAmount (position_of s (msg_sender env)) ->
    _updateInterest env (msg_sender env) s = Revert Panic s ->
    borrow env amount s = Revert Panic s ->
    borrow_outcome env amount s
| borrow_overflow s1 :
    let p1 := position_of s1 (msg_sender env) in
    0 < amount ->
    0 < collateralAmount (position_of s (msg_sender env)) ->
    _updateInterest env (msg_sender env) s = Ok tt s1 ->
    Uint256.MAX < collateralAmount p1 * PRECISION \/
      Uint256.MAX < debt p1 + amount ->
    borrow env amount s = Revert Panic s1 ->
    borrow_outcome env amount s
| borrow_exceeds_capacity s1 :
    let p1 := position_of s1 (msg_sender env) in
    0 < amount ->
    0 < collateralAmount (position_of s (msg_sender env)) ->
    _updateInterest env (msg_sender env) s = Ok tt s1 ->
    collateralAmount p1 * PRECISION <= Uint256.MAX ->
    debt p1 + amount <= Uint256.MAX ->
    maxBorrowable p1 < debt p1 + amount ->
    borrow env amount s = Revert ExceedsCapacity s1 ->
    borrow_outcome env amount s
| borrow_insufficient_reserve s1 :
    let p1 := position_of s1 (msg_sender env) in
    0 < amount ->
    0 < collateralAmount (position_of s (msg_sender env)) ->
    _updateInterest env (msg_sender env) s = Ok tt s1 ->
    collateralAmount p1 * PRECISION <= Uint256.MAX ->
    debt p1 + amount <= maxBorrowable p1 ->
    IERC20.pool (loanToken s1) < amount ->
    borrow env amount s = Revert InsufficientReserve s1 ->
    borrow_outcome env amount s
| borrow_success s1 :
    let p1 := position_of s1 (msg_sender env) in
    0 < amount ->
    0 < collateralAmount (position_of s (msg_sender env)) ->
    _updateInterest env (msg_sender env) s = Ok tt s1 ->
    collateralAmount p1 * PRECISION <= Uint256.MAX ->
    debt p1 + amount <= maxBorrowable p1 ->
    amount <= IERC20.pool (loanToken s1) ->
    borrow env amount s = Ok tt (borrowed s1 env amount) ->
    borrow_outcome env amount s.

(** ** Outcomes of the other operations *)

Definition deposited (s : State) (env : Env) (amount : N) : State :=
  update_position
    (set_collateralToken s
       (IERC20.pulled_in (msg_sender env) amount (collateralToken s)))
    (msg_sender env)
    (set_collateralAmount
       (collateralAmount (position_of s (msg_sender env)) + amount)
       (position_of s (msg_sender env))).

Inductive deposit_outcome (env : Env) (amount : N) (s : State) : Prop :=
| deposit_invalid_amount :
    amount = 0 ->
    depositCollateral env amount s = Revert InvalidAmount s ->
    deposit_outcome env amount s
| deposit_transfer_failed :
    0 < amount ->
    IERC20.balanceOf (collateralToken s) (msg_sender env) < amount \/
      IERC20.allowance (collateralToken s) (msg_sender env) < amount ->
    depositCollateral env amount s = Revert TokenReverted s ->
    deposit_outcome env amount s
| deposit_overflow :
    0 < amount ->
    amount <= IERC20.balanceOf (collateralToken s) (msg_sender env) ->
    amount <= IERC20.allowance (collateralToken s) (msg_sender env) ->
    Uint256.MAX < collateralAmount (position_of s (msg_sender env)) + amount ->
    depositCollateral env amount s
      = Revert Panic
          (set_collateralToken s
             (IERC20.pulled_in (msg_sender env) amount (collateralToken s))) ->
    deposit_outcome env amount s
| deposit_success :
    0 < amount ->
    amount <= IERC20.balanceOf (collateralToken s) (msg_sender env) ->
    amount <= IERC20.allowance (collateralToken s) (msg_sender env) ->
    collateralAmount (position_of s (msg_sender env)) + amount <= Uint256.MAX ->
    depositCollateral env amount s = Ok tt (deposited s env amount) ->
    deposit_outcome env amount s.

(** The position once its loan is cleared. *)
Definition cleared (p : UserPosition) : UserPosition :=
  {| collateralAmount := collateralAmount p;
     loanAmount := 0;
     lastInterestUpdate := 0;
     accumulatedInterest := 0 |}.

(** The state after the whole debt of the accrued state [s1] was paid. *)
Definition repaid (s1 : State) (env : Env) : State :=
  update_position
    (set_loanToken s1
       (IERC20.pulled_in (msg_sender env)
          (debt (position_of s1 (msg_sender env))) (loanToken s1)))
    (msg_sender env)
    (cleared (position_of s1 (msg_sender env))).

Inductive repay_outcome (env : Env) (s : State) : Prop :=
| repay_no_loan :
    loanAmount (position_of s (msg_sender env)) = 0 ->
    repay env s = Revert NoActiveLoan s ->
    repay_outcome env s
| repay_accrual_panic :
    0 < loanAmount (position_of s (msg_sender env)) ->
    _updateInterest env (msg_sender env) s = Revert Panic s ->
    repay env s = Revert Panic s ->
    repay_outcome env s
| repay_overflow s1 :
    0 < loanAmount (position_of s (msg_sender env)) ->
    _updateInterest env (msg_sender env) s = Ok tt s1 ->
    Uint256.MAX < debt (position_of s1 (msg_sender env)) ->
    repay env s = Revert Panic s1 ->
    repay_outcome env s
| repay_transfer_failed s1 :
    let total := debt (position_of s1 (msg_sender env)) in
    0 < loanAmount (position_of s (msg_sender env)) ->
    _updateInterest env (msg_sender env) s = Ok tt s1 ->
    total <= Uint256.MAX ->
    IERC20.balanceOf (loanToken s1) (msg_sender env) < total \/
      IERC20.allowance (loanToken s1) (msg_sender env) < total ->
    repay env s = Revert TokenReverted s1 ->
    repay_outcome env s
| repay_success s1 :
    let total := debt (position_of s1 (msg_sender env)) in
    0 < loanAmount (position_of s (msg_sender env)) ->
    _updateInterest env (msg_sender env) s = Ok tt s1 ->
    total <= Uint256.MAX ->
    total <= IERC20.balanceOf (loanToken s1) (msg_sender env) ->
    total <= IERC20.allowance (loanToken s1) (msg_sender env) ->
    repay env s = Ok tt (repaid s1 env) ->
    repay_outcome env s.

(** The current view [withdrawCollateral] takes of the caller's debt: the
    accrued state when there is a principal, the stored state otherwise. *)
Definition current_view (env : Env) (s s1 : State) : Prop :=
  (loanAmount (position_of s (msg_sender env)) = 0 /\ s1 = s) \/
  (0 < loanAmount (position_of s (msg_sender env)) /\
   _updateInterest env (msg_sender env) s = Ok tt s1).

Definition withdrawn (s : State) (env : Env) : State :=
  set_collateralToken
    (update_position s (msg_sender env)
       (set_collateralAmount 0 (position_of s (msg_sender env))))
    (IERC20.paid_out (msg_sender env)
       (collateralAmount (position_of s (msg_sender env))) (collateralToken s)).

Inductive withdraw_outcome (env : Env) (s : State) : Prop :=
| withdraw_no_collateral :
    collateralAmount (position_of s (msg_sender env)) = 0 ->
    withdrawCollateral env s = Revert NoCollateralToWithdraw s ->
    withdraw_outcome env s
| withdraw_accrual_panic :
    0 < collateralAmount (position_of s (msg_sender env)) ->
    0 < loanAmount (position_of s (msg_sender env)) ->
    _updateInterest env (msg_sender env) s = Revert Panic s ->
    withdrawCollateral env s = Revert Panic s ->
    withdraw_outcome env s
| withdraw_overflow s1 :
    0 < collateralAmount (position_of s (msg_sender env)) ->
    current_view env s s1 ->
    Uint256.MAX < debt (position_of s1 (msg_sender env)) ->
    withdrawCollateral env s = Revert Panic s1 ->
    withdraw_outcome env s
| withdraw_active_debt s1 :
    0 < collateralAmount (position_of s (msg_sender env)) ->
    current_view env s s1 ->
    0 < debt (position_of s1 (msg_sender env)) ->
    withdrawCollateral env s = Revert ActiveDebt s1 ->
    withdraw_outcome env s
| withdraw_transfer_failed :
    0 < collateralAmount (position_of s (msg_sender env)) ->
    debt (position_of s (msg_sender env)) = 0 ->
    IERC20.pool (collateralToken s)
      < collateralAmount (position_of s (msg_sender env)) ->
    withdrawCollateral env s
      = Revert TokenReverted
          (update_position s (msg_sender env)
             (set_collateralAmount 0 (position_of s (msg_sender env)))) ->
    withdraw_outcome env s
| withdraw_success :
    0 < collateralAmount (position_of s (msg_sender env)) ->
    debt (position_of s (msg_sender env)) = 0 ->
    collateralAmount (position_of s (msg_sender env))
      <= IERC20.pool (collateralToken s) ->
    withdrawCollateral env s = Ok tt (withdrawn s env) ->
    withdraw_outcome env s.

Inductive fund_outcome (env : Env) (amount : N) (s : State) : Prop :=
| fund_unauthorized :
    msg_sender env <> owner s ->
    fundContract env amount s = Revert OwnableUnauthorizedAccount s ->
    fund_outcome env amount s
| fund_transfer_failed :
    msg_sender env = owner s ->
    IERC20.balanceOf (loanToken s) (msg_sender env) < amount \/
      IERC20.allowance (loanToken s) (msg_sender env) < amount ->
    fundContract env amount s = Revert TokenReverted s ->
    fund_outcome env amount s
| fund_success :
    msg_sender env = owner s ->
    amount <= IERC20.balanceOf (loanToken s) (msg_sender env) ->
    amount <= IERC20.allowance (loanToken s) (msg_sender env) ->
    fundContract env amount s
      = Ok tt (set_loanToken s
                 (IERC20.pulled_in (msg_sender env) amount (loanToken s))) ->
    fund_outcome env amount s.

Inductive withdrawExcess_outcome (env : Env) (amount : N) (s : State) : Prop :=
| excess_unauthorized :
    msg_sender env <> owner s ->
    withdrawExcess env amount s = Revert OwnableUnauthorizedAccount s ->
    withdrawExcess_outcome env amount s
| excess_transfer_failed :
    msg_sender env = owner s ->
    IERC20.pool (loanToken s) < amount ->
    withdrawExcess env amount s = Revert TokenReverted s ->
    withdrawExcess_outcome env amount s
| excess_success :
    msg_sender env = owner s ->
    amount <= IERC20.pool (loanToken s) ->
    withdrawExcess env amount s
      = Ok tt (set_loanToken s
                 (IERC20.paid_out (msg_sender env) amount (loanToken s))) ->
    withdrawExcess_outcome env amount s.

(** ** A concrete ledger for the examples

    As in the test fixture: the protocol holds 100000 loan tokens, a
    participant holds 10000 of each token and has approved the protocol. *)

Definition admin : address := 100.
Definition alice : address := 1.

Definition cUSD : IERC20.Token :=
  {| IERC20.pool := 0;
     IERC20.balances := {[alice := 10000]};
     IERC20.allowances := {[alice := 10000]} |}.

Definition dDAI : IERC20.Token :=
  {| IERC20.pool := 100000;
     IERC20.balances := {[alice := 10000]};
     IERC20.allowances := {[alice := 10000]} |}.

Definition genesis : State :=
  {| userPositions := ∅; collateralToken := cUSD; loanToken := dDAI; owner := admin |}.

Definition as_alice (now : N) : Env :=
  {| msg_sender := alice; block_timestamp := now |}.

Definition as_admin (now : N) : Env :=
  {| msg_sender := admin; block_timestamp := now |}.

(** Deposit 1500 and borrow 1000 at time [t]. *)
Definition borrowed_at (t : N) : State :=
  step (as_alice t) (Borrow 1000) (step (as_alice t) (DepositCollateral 1500) genesis).

(** A participant holding [2^255] collateral tokens deposits them all. *)
Definition whale_cUSD : IERC20.Token :=
  {| IERC20.pool := 0;
     IERC20.balances := {[alice := 2 ^ 255]};
     IERC20.allowances := {[alice := 2 ^ 255]} |}.

Definition whale_ledger : State :=
  step (as_alice 0) (DepositCollateral (2 ^ 255))
    {| userPositions := ∅; collateralToken := whale_cUSD; loanToken := dDAI;
       owner := admin |}.

(** A participant with 500 of collateral and no debt. *)
Definition saver_ledger : State :=
  step (as_alice 0) (DepositCollateral 500) genesis.

(** Deposit 1500 and borrow 10 at time 10. *)
Definition small_loan : State :=
  step (as_alice 10) (Borrow 10) (step (as_alice 10) (DepositCollateral 1500) genesis).

(** ** Vocabulary of the further properties *)

(** The collateral recorded over all positions. *)
Definition total_collateral (s : State) : N :=
  map_fold (fun _ p acc => collateralAmount p + acc) 0 (userPositions s).

(** The collateral tokens held cover the collateral recorded. *)
Definition solvent (s : State) : Prop :=
  total_collateral s <= IERC20.pool (collateralToken s).

(** The stored debt of a position is within its borrowing capacity. *)
Definition collateralised (p : UserPosition) : Prop :=
  debt p <= maxBorrowable p.

(** The interest [getUserData] reports for the stored position [p] at
    [now], when it returns. *)
Definition projected_interest (env : Env) (user : address) (s : State)
  : option N :=
  match getUserData env user s with
  | Ok (_, _, interest) _ => Some interest
  | Revert _ _ => None
  end.

(** * Proofs *)

(** ** Storage *)

Lemma position_of_update s user p user' :
  position_of (update_position s user p) user' =
  if decide (user = user') then p else position_of s user'.
Proof.
  unfold position_of, update_position; simpl.
  rewrite lookup_insert. by case_decide.
Qed.

Lemma position_of_update_eq s user p :
  position_of (update_position s user p) user = p.
Proof. rewrite position_of_update. by rewrite decide_True. Qed.

Lemma position_of_update_ne s user p user' :
  user ≠ user' -> position_of (update_position s user p) user' = position_of s user'.
Proof. intros. rewrite position_of_update. by rewrite decide_False. Qed.

Lemma update_position_twice s user p q :
  update_position (update_position s user p) user q = update_position s user q.
Proof. unfold update_position; simpl. by rewrite insert_insert_eq. Qed.

Lemma store_update user f s :
  store user f s = Ok tt (update_position s user (f (position_of s user))).
Proof. reflexivity. Qed.

Lemma bind_Ok {A B} (m : M A) (f : A -> M B) s a s' :
  m s = Ok a s' -> (m ≫= f) s = f a s'.
Proof. unfold mbind, M_bind. by intros ->. Qed.

Lemma bind_Revert {A B} (m : M A) (f : A -> M B) s e d :
  m s = Revert e d -> (m ≫= f) s = Revert e d.
Proof. unfold mbind, M_bind. by intros ->. Qed.

(** ** Checked arithmetic *)

Lemma add_Some a b : a + b <= Uint256.MAX -> Uint256.add a b = Some (a + b).
Proof. intros H. unfold Uint256.add. by apply N.leb_le in H as ->. Qed.

Lemma add_None a b : Uint256.MAX < a + b -> Uint256.add a b = None.
Proof. intros H. unfold Uint256.add. by apply N.leb_gt in H as ->. Qed.

Lemma mul_Some a b : a * b <= Uint256.MAX -> Uint256.mul a b = Some (a * b).
Proof. intros H. unfold Uint256.mul. by apply N.leb_le in H as ->. Qed.

Lemma mul_None a b : Uint256.MAX < a * b -> Uint256.mul a b = None.
Proof. intros H. unfold Uint256.mul. by apply N.leb_gt in H as ->. Qed.

Lemma sub_Some a b : b <= a -> Uint256.sub a b = Some (a - b).
Proof. intros H. unfold Uint256.sub. by apply N.leb_le in H as ->. Qed.

Lemma sub_None a b : a < b -> Uint256.sub a b = None.
Proof. intros H. unfold Uint256.sub. by apply N.leb_gt in H as ->. Qed.

(** ** Accrual *)

Lemma updateInterest_outcome env user s : accrual_outcome env user s.
Proof.
  pose (p := position_of s user).
  pose (now := block_timestamp env).
  destruct (N.ltb_spec 0 (loanAmount p)) as [Hl|Hl]; cycle 1.
  { apply accrual_skipped; [left; fold p; lia|].
    unfold _updateInterest, load, mbind, M_bind. fold p.
    by apply N.ltb_ge in Hl as ->. }
  destruct (N.ltb_spec 0 (lastInterestUpdate p)) as [Ht|Ht]; cycle 1.
  { apply accrual_skipped; [right; left; fold p; lia|].
    unfold _updateInterest, load, mbind, M_bind. fold p.
    apply N.ltb_ge in Ht as ->. by rewrite andb_false_r. }
  assert (Hguard : (0 <? loanAmount p) && (0 <? lastInterestUpdate p) = true).
  { apply andb_true_iff; split; by apply N.ltb_lt. }
  destruct (N.le_gt_cases (lastInterestUpdate p) now) as [Hle|Hgt]; cycle 1.
  { apply accrual_panicked; fold p; [done|done|by left|].
    unfold _updateInterest, load, mbind, M_bind. fold p. rewrite Hguard.
    fold now. by rewrite sub_None. }
  pose (k := weeksElapsed p now).
  destruct (N.ltb_spec 0 k) as [Hk|Hk]; cycle 1.
  { apply accrual_skipped.
    - right; right. fold p now k. split; [done|lia].
    - unfold _updateInterest, load, mbind, M_bind. fold p. rewrite Hguard.
      fold now. rewrite sub_Some by done. simpl.
      change ((now - lastInterestUpdate p) / WEEK) with k.
      by apply N.ltb_ge in Hk as ->. }
  assert (Hrun : forall r,
    (match checked (Uint256.mul (loanAmount p) INTEREST_RATE) s with
     | Ok x s1 =>
         match checked (Uint256.mul x k) s1 with
         | Ok y s2 =>
             match checked (Uint256.add (accumulatedInterest p) (y / PRECISION)) s2 with
             | Ok acc s3 =>
                 (store user (set_accumulatedInterest acc);;
                  store user (set_lastInterestUpdate now)) s3
             | Revert e d => Revert e d
             end
         | Revert e d => Revert e d
         end
     | Revert e d => Revert e d
     end) = r -> _updateInterest env user s = r).
  { intros r <-.
    unfold _updateInterest, load, mbind at 1, M_bind at 1. fold p. rewrite Hguard.
    fold now. unfold mbind at 1, M_bind at 1. rewrite sub_Some by done. simpl.
    change ((now - lastInterestUpdate p) / WEEK) with k.
    apply N.ltb_lt in Hk as ->. reflexivity. }
  destruct (N.le_gt_cases (loanAmount p * INTEREST_RATE * k) Uint256.MAX) as [Hm|Hm];
    cycle 1.
  { apply accrual_panicked; fold p now k; [done|done|right; split; [done|by left]|].
    apply Hrun.
    destruct (N.le_gt_cases (loanAmount p * INTEREST_RATE) Uint256.MAX) as [Hx|Hx].
    - rewrite (mul_Some _ _ Hx). simpl. by rewrite (mul_None _ _ Hm).
    - by rewrite (mul_None _ _ Hx). }
  assert (Hx : loanAmount p * INTEREST_RATE <= Uint256.MAX) by nia.
  destruct (N.le_gt_cases (accumulatedInterest p + newInterest (loanAmount p) k)
              Uint256.MAX) as [Ha|Ha]; cycle 1.
  { apply accrual_panicked; fold p now k; [done|done|right; split; [done|by right]|].
    apply Hrun. rewrite (mul_Some _ _ Hx). simpl. rewrite (mul_Some _ _ Hm). simpl.
    fold (newInterest (loanAmount p) k). by rewrite (add_None _ _ Ha). }
  apply accrual_applied; fold p now k; try done.
  apply Hrun. rewrite (mul_Some _ _ Hx). simpl. rewrite (mul_Some _ _ Hm). simpl.
  fold (newInterest (loanAmount p) k). rewrite (add_Some _ _ Ha). simpl.
  unfold mbind, M_bind. rewrite !store_update, update_position_twice.
  rewrite position_of_update_eq. reflexivity.
Qed.

(** C2 (as amended).  [_updateInterest] leaves the position unchanged when
    the principal is zero, when the accrual time is unset (zero), and when
    no whole week has elapsed; otherwise, when the products and the sum fit
    in [uint256], it adds exactly [floor(principal * 5 * weeks / 100)] to
    the accumulated interest and sets the accrual time to [now], collateral
    and principal unchanged; when [now] lies before the accrual time or a
    step overflows, it panics without having written anything. *)
Theorem updateInterest_spec env user s :
  let p := position_of s user in
  let now := block_timestamp env in
  let k := weeksElapsed p now in
  (loanAmount p = 0 \/ lastInterestUpdate p = 0 ->
     _updateInterest env user s = Ok tt s) /\
  (lastInterestUpdate p <= now -> k = 0 ->
     _updateInterest env user s = Ok tt s) /\
  (0 < loanAmount p -> 0 < lastInterestUpdate p ->
   lastInterestUpdate p <= now -> 0 < k ->
   loanAmount p * INTEREST_RATE * k <= Uint256.MAX ->
   accumulatedInterest p + newInterest (loanAmount p) k <= Uint256.MAX ->
     _updateInterest env user s = Ok tt (update_position s user (accrued p now k))) /\
  (0 < loanAmount p -> 0 < lastInterestUpdate p ->
   now < lastInterestUpdate p \/
     (0 < k /\ (Uint256.MAX < loanAmount p * INTEREST_RATE * k \/
                Uint256.MAX < accumulatedInterest p + newInterest (loanAmount p) k)) ->
     _updateInterest env user s = Revert Panic s).
Proof.
  cbv zeta.
  destruct (updateInterest_outcome env user s)
    as [q Hc Hr|q j ? ? ? ? ? ? Hr|q j ? ? Hc Hr];
    subst q; try subst j; repeat split; intros; try done; lia.
Qed.

(** C2 (counterexample).  A loan drawn at timestamp 0 has its accrual time
    at zero; a week later the principal is 1000 and one whole period has
    elapsed, so the claim promises 50 of new interest and the accrual time
    moved to [now], but the guard [lastInterestUpdate > 0] skips the
    accrual and the position is returned as it was. *)
Lemma updateInterest_skips_unset_time :
  let s := borrowed_at 0 in
  let p := position_of s alice in
  let now := WEEK in
  p = mkPosition 1500 1000 0 0 /\
  loanAmount p <> 0 /\
  weeksElapsed p now = 1 /\
  newInterest (loanAmount p) (weeksElapsed p now) = 50 /\
  _updateInterest (as_alice now) alice s = Ok tt s /\
  position_of s alice <> accrued p now (weeksElapsed p now).
Proof. vm_compute. repeat split; congruence. Qed.

(** ** The read-only projection *)


(** ** Stepping through a call *)

Section Stepping.
Context {B : Type} (f : unit -> M B) (s : State).

Lemma bind_require_true cond reason :
  cond = true -> (require cond reason ≫= f) s = f tt s.
Proof. by intros ->. Qed.

Lemma bind_require_false cond reason :
  cond = false -> (require cond reason ≫= f) s = Revert (Error reason) s.
Proof. by intros ->. Qed.

Lemma bind_store user g :
  (store user g ≫= f) s = f tt (update_position s user (g (position_of s user))).
Proof. reflexivity. Qed.

Lemma bind_loan_call_Transferred g reason t :
  g (loanToken s) = IERC20.Transferred t ->
  (loan_call g reason ≫= f) s = f tt (set_loanToken s t).
Proof. unfold mbind, M_bind, loan_call. by intros ->. Qed.

Lemma bind_loan_call_Reverted g reason :
  g (loanToken s) = IERC20.Reverted ->
  (loan_call g reason ≫= f) s = Revert TokenReverted s.
Proof. unfold mbind, M_bind, loan_call. by intros ->. Qed.

Lemma bind_collateral_call_Transferred g reason t :
  g (collateralToken s) = IERC20.Transferred t ->
  (collateral_call g reason ≫= f) s = f tt (set_collateralToken s t).
Proof. unfold mbind, M_bind, collateral_call. by intros ->. Qed.

Lemma bind_collateral_call_Reverted g reason :
  g (collateralToken s) = IERC20.Reverted ->
  (collateral_call g reason ≫= f) s = Revert TokenReverted s.
Proof. unfold mbind, M_bind, collateral_call. by intros ->. Qed.
End Stepping.

Lemma bind_load {B} (f : UserPosition -> M B) s user :
  (load user ≫= f) s = f (position_of s user) s.
Proof. reflexivity. Qed.

Lemma bind_loan_reserve {B} (f : N -> M B) s :
  (loan_reserve ≫= f) s = f (IERC20.pool (loanToken s)) s.
Proof. reflexivity. Qed.

Lemma bind_checked_Some {B} (f : N -> M B) s o n :
  o = Some n -> (checked o ≫= f) s = f n s.
Proof. by intros ->. Qed.

Lemma bind_checked_None {B} (f : N -> M B) s o :
  o = None -> (checked o ≫= f) s = Revert Panic s.
Proof. by intros ->. Qed.

Lemma loan_call_Transferred g reason s t :
  g (loanToken s) = IERC20.Transferred t ->
  loan_call g reason s = Ok tt (set_loanToken s t).
Proof. unfold loan_call. by intros ->. Qed.

Lemma loan_call_Reverted g reason s :
  g (loanToken s) = IERC20.Reverted -> loan_call g reason s = Revert TokenReverted s.
Proof. unfold loan_call. by intros ->. Qed.

Lemma collateral_call_Transferred g reason s t :
  g (collateralToken s) = IERC20.Transferred t ->
  collateral_call g reason s = Ok tt (set_collateralToken s t).
Proof. unfold collateral_call. by intros ->. Qed.

Lemma collateral_call_Reverted g reason s :
  g (collateralToken s) = IERC20.Reverted ->
  collateral_call g reason s = Revert TokenReverted s.
Proof. unfold collateral_call. by intros ->. Qed.

Lemma transfer_Transferred to amount t :
  amount <= IERC20.pool t ->
  IERC20.transfer to amount t = IERC20.Transferred (IERC20.paid_out to amount t).
Proof. intros H. unfold IERC20.transfer. by apply N.leb_le in H as ->. Qed.

Lemma transfer_Reverted to amount t :
  IERC20.pool t < amount -> IERC20.transfer to amount t = IERC20.Reverted.
Proof. intros H. unfold IERC20.transfer. by apply N.leb_gt in H as ->. Qed.

Lemma transferFrom_Transferred from amount t :
  amount <= IERC20.balanceOf t from -> amount <= IERC20.allowance t from ->
  IERC20.transferFrom from amount t
    = IERC20.Transferred (IERC20.pulled_in from amount t).
Proof.
  intros H1 H2. unfold IERC20.transferFrom.
  apply N.leb_le in H1 as ->. by apply N.leb_le in H2 as ->.
Qed.

Lemma transferFrom_Reverted from amount t :
  IERC20.balanceOf t from < amount \/ IERC20.allowance t from < amount ->
  IERC20.transferFrom from amount t = IERC20.Reverted.
Proof.
  intros H. unfold IERC20.transferFrom.
  destruct H as [H|H]; apply N.leb_gt in H as ->; [done|by rewrite andb_false_r].
Qed.

Lemma balanceOf_paid_out to amount t :
  IERC20.balanceOf (IERC20.paid_out to amount t) to = IERC20.balanceOf t to + amount.
Proof. unfold IERC20.balanceOf at 1; simpl. by rewrite lookup_insert_eq. Qed.

Lemma balanceOf_pulled_in from amount t :
  IERC20.balanceOf (IERC20.pulled_in from amount t) from
    = IERC20.balanceOf t from - amount.
Proof. unfold IERC20.balanceOf at 1; simpl. by rewrite lookup_insert_eq. Qed.

(** What accrual leaves alone. *)
Lemma updateInterest_frame env user s s1 :
  _updateInterest env user s = Ok tt s1 ->
  collateralToken s1 = collateralToken s /\
  loanToken s1 = loanToken s /\
  owner s1 = owner s /\
  collateralAmount (position_of s1 user) = collateralAmount (position_of s user) /\
  loanAmount (position_of s1 user) = loanAmount (position_of s user) /\
  accumulatedInterest (position_of s user) <= accumulatedInterest (position_of s1 user) /\
  forall user', user ≠ user' -> position_of s1 user' = position_of s user'.
Proof.
  intros Hr.
  destruct (updateInterest_outcome env user s) as [q ? Hq|q j ? ? ? ? ? ? Hq|q j ? ? ? Hq];
    subst q; try subst j; rewrite Hq in Hr; inversion Hr; subst; clear Hr.
  - split_and!; try done; lia.
  - rewrite position_of_update_eq. split_and!; simpl; try done; try lia.
    intros. by apply position_of_update_ne.
Qed.

Lemma updateInterest_revert env user s e d :
  _updateInterest env user s = Revert e d -> e = Panic /\ d = s.
Proof.
  intros Hr.
  destruct (updateInterest_outcome env user s) as [q ? Hq|q j ? ? ? ? ? ? Hq|q j ? ? ? Hq];
    rewrite Hq in Hr; by inversion Hr.
Qed.

(** ** Borrowing *)

Lemma borrow_cases env amount s : borrow_outcome env amount s.
Proof.
  set (user := msg_sender env).
  destruct (N.ltb_spec 0 amount) as [Ha|Ha]; cycle 1.
  { apply borrow_invalid_amount; [lia|].
    unfold borrow. apply bind_require_false. by apply N.ltb_ge. }
  assert (Hstart : forall r,
    (require (0 <? collateralAmount (position_of s user)) "No collateral deposited";;
     _updateInterest env user;;
     position ← load user;
     scaled ← checked (Uint256.mul (collateralAmount position) PRECISION);
     let maxBorrowable := scaled / COLLATERALIZATION_RATIO in
     currentDebt ← checked (Uint256.add (loanAmount position)
                                         (accumulatedInterest position));
     requested ← checked (Uint256.add currentDebt amount);
     require (requested <=? maxBorrowable) "Exceeds borrowing capacity";;
     reserve ← loan_reserve;
     require (amount <=? reserve) "Insufficient loan tokens in contract";;
     l ← checked (Uint256.add (loanAmount position) amount);
     store user (set_loanAmount l);;
     store user (set_lastInterestUpdate (block_timestamp env));;
     loan_call (IERC20.transfer user amount) "Loan transfer failed") s = r ->
    borrow env amount s = r).
  { intros r <-. unfold borrow. rewrite bind_require_true by by apply N.ltb_lt.
    by rewrite bind_load. }
  destruct (N.ltb_spec 0 (collateralAmount (position_of s user))) as [Hc|Hc]; cycle 1.
  { apply borrow_no_collateral; [done|fold user; lia|].
    by apply Hstart, bind_require_false. }
  rewrite bind_require_true in Hstart by done.
  destruct (_updateInterest env user s) as [[] s1|e d] eqn:Hu; cycle 1.
  { destruct (updateInterest_revert _ _ _ _ _ Hu) as [-> ->].
    apply borrow_accrual_panic; try done. apply Hstart.
    by rewrite (bind_Revert _ _ _ _ _ Hu). }
  rewrite (bind_Ok _ _ _ _ _ Hu), bind_load in Hstart.
  set (p1 := position_of s1 user) in *.
  destruct (N.le_gt_cases (collateralAmount p1 * PRECISION) Uint256.MAX) as [Hs|Hs];
    cycle 1.
  { apply (borrow_overflow _ _ _ s1); try done; [by left|].
    apply Hstart, bind_checked_None. by apply mul_None. }
  rewrite (bind_checked_Some _ _ _ _ (mul_Some _ _ Hs)) in Hstart.
  cbv zeta in Hstart.
  destruct (N.le_gt_cases (debt p1 + amount) Uint256.MAX) as [Hd|Hd]; cycle 1.
  { apply (borrow_overflow _ _ _ s1); try done; [by right|].
    apply Hstart.
    destruct (N.le_gt_cases (debt p1) Uint256.MAX) as [Hd1|Hd1].
    - rewrite (bind_checked_Some _ _ _ _ (add_Some _ _ Hd1)).
      apply bind_checked_None. by apply add_None.
    - apply bind_checked_None. by apply add_None. }
  assert (Hd1 : loanAmount p1 + accumulatedInterest p1 <= Uint256.MAX)
    by (unfold debt in Hd; lia).
  rewrite (bind_checked_Some _ _ _ _ (add_Some _ _ Hd1)) in Hstart.
  fold (debt p1) in Hstart.
  rewrite (bind_checked_Some _ _ _ _ (add_Some _ _ Hd)) in Hstart.
  fold (maxBorrowable p1) in Hstart.
  destruct (N.leb_spec (debt p1 + amount) (maxBorrowable p1)) as [Hm|Hm]; cycle 1.
  { apply (borrow_exceeds_capacity _ _ _ s1); try done.
    by apply Hstart, bind_require_false. }
  rewrite bind_require_true, bind_loan_reserve in Hstart by done.
  destruct (N.leb_spec amount (IERC20.pool (loanToken s1))) as [Hp|Hp]; cycle 1.
  { apply (borrow_insufficient_reserve _ _ _ s1); try done.
    by apply Hstart, bind_require_false. }
  rewrite bind_require_true in Hstart by done.
  assert (Hl : loanAmount p1 + amount <= Uint256.MAX) by (unfold debt in Hd; lia).
  rewrite (bind_checked_Some _ _ _ _ (add_Some _ _ Hl)), !bind_store in Hstart.
  apply (borrow_success _ _ _ s1); try done.
  apply Hstart. rewrite update_position_twice, position_of_update_eq.
  exact (loan_call_Transferred _ _ (update_position s1 user _) _
           (transfer_Transferred user amount (loanToken s1) Hp)).
Qed.

Lemma call_Ok {A} (m : M A) s a s' : m s = Ok a s' -> call m s = (s', Success).
Proof. unfold call. by intros ->. Qed.

Lemma call_Revert {A} (m : M A) s e d :
  m s = Revert e d -> call m s = (s, Failure e).
Proof. unfold call. by intros ->. Qed.

Lemma call_Success_inv {A} (m : M A) s s' :
  call m s = (s', Success) -> exists a, m s = Ok a s'.
Proof. unfold call. destruct (m s); intros [= <-]; eauto. Qed.

Lemma position_of_set_loanToken s t user :
  position_of (set_loanToken s t) user = position_of s user.
Proof. reflexivity. Qed.

Lemma position_of_set_collateralToken s t user :
  position_of (set_collateralToken s t) user = position_of s user.
Proof. reflexivity. Qed.

Lemma borrow_Ok_inv env amount s s' :
  borrow env amount s = Ok tt s' ->
  exists s1,
    _updateInterest env (msg_sender env) s = Ok tt s1 /\
    0 < amount /\
    debt (position_of s1 (msg_sender env)) + amount
      <= maxBorrowable (position_of s1 (msg_sender env)) /\
    amount <= IERC20.pool (loanToken s1) /\
    s' = borrowed s1 env amount.
Proof.
  intros Hb.
  destruct (borrow_cases env amount s)
    as [? Hr|? ? Hr|? ? ? Hr|s1 p1 ? ? ? ? Hr|s1 p1 ? ? ? ? ? ? Hr
       |s1 p1 ? ? ? ? ? ? Hr|s1 p1 ? ? ? ? ? ? Hr];
    rewrite Hr in Hb; try discriminate.
  injection Hb as <-. exists s1. by subst p1.
Qed.

(** C1.  Immediately after a successful [borrow], the caller's principal
    plus accumulated interest (after the accrual and the draw of that call)
    is at most [floor(collateral * 100 / 150)].  This holds from every
    state, in particular from every reachable one. *)
Theorem borrow_respects_collateralization env amount s s' :
  call (borrow env amount) s = (s', Success) ->
  debt (position_of s' (msg_sender env))
    <= maxBorrowable (position_of s' (msg_sender env)).
Proof.
  intros [[] Hb]%call_Success_inv.
  apply borrow_Ok_inv in Hb as (s1 & _ & _ & Hcap & _ & ->).
  unfold borrowed. rewrite position_of_set_loanToken, position_of_update_eq.
  unfold debt, maxBorrowable, drawn in *; simpl. lia.
Qed.

Lemma borrow_respects_collateralization_witness :
  call (borrow (as_alice 10) 1000)
       (step (as_alice 10) (DepositCollateral 1500) genesis)
    = (borrowed_at 10, Success) /\
  debt (position_of (borrowed_at 10) alice)
    <= maxBorrowable (position_of (borrowed_at 10) alice).
Proof.
  split; [by vm_compute|].
  apply (borrow_respects_collateralization (as_alice 10) 1000
           (step (as_alice 10) (DepositCollateral 1500) genesis)).
  by vm_compute.
Defined.

(** C3 (counterexample).  With [2^255] of collateral, no loan, a reserve of
    100000 and a request of 1, none of the four listed conditions holds:
    the amount is positive, the collateral is not zero, after the accrual
    (which changes nothing) the new debt 1 is within
    [floor(collateral * 100 / 150)], and the reserve covers the amount.
    The claim promises success; the call fails, because
    [collateralAmount * PRECISION] does not fit in [uint256]. *)
Lemma borrow_panics_on_huge_collateral :
  let s := whale_ledger in
  let env := as_alice 0 in
  let p := position_of s alice in
  p = mkPosition (2 ^ 255) 0 0 0 /\
  0 < 1 /\
  collateralAmount p <> 0 /\
  _updateInterest env alice s = Ok tt s /\
  debt p + 1 <= maxBorrowable p /\
  1 <= IERC20.pool (loanToken s) /\
  call (borrow env 1) s = (s, Failure Panic).
Proof. vm_compute. split_and!; congruence. Qed.

(** C3 (as amended).  [borrow] fails, leaving all state unchanged, exactly
    in these cases, checked in this order: the amount is zero
    (InvalidAmount); the caller's collateral is zero (NoCollateral); the
    accrual panics; [collateral * 100] or the accrued debt plus the amount
    does not fit in [uint256] (arithmetic panic); the accrued debt plus the
    amount exceeds [floor(collateral * 100 / 150)] (ExceedsCapacity); the
    loan-token reserve is below the amount (InsufficientReserve).
    Otherwise it succeeds: on top of the accrual, the reserve decreases by
    the amount, the caller receives it, the principal increases by the
    amount and the accrual time is set to [now]. *)
Theorem borrow_spec env amount s :
  let user := msg_sender env in
  let run := call (borrow env amount) s in
  (amount = 0 -> run = (s, Failure InvalidAmount)) /\
  (0 < amount -> collateralAmount (position_of s user) = 0 ->
     run = (s, Failure NoCollateral)) /\
  (0 < amount -> 0 < collateralAmount (position_of s user) ->
   forall e d, _updateInterest env user s = Revert e d ->
     run = (s, Failure Panic)) /\
  (0 < amount -> 0 < collateralAmount (position_of s user) ->
   forall s1, _updateInterest env user s = Ok tt s1 ->
     let p1 := position_of s1 user in
     (Uint256.MAX < collateralAmount p1 * PRECISION \/
      Uint256.MAX < debt p1 + amount ->
        run = (s, Failure Panic)) /\
     (collateralAmount p1 * PRECISION <= Uint256.MAX ->
      debt p1 + amount <= Uint256.MAX ->
      maxBorrowable p1 < debt p1 + amount ->
        run = (s, Failure ExceedsCapacity)) /\
     (collateralAmount p1 * PRECISION <= Uint256.MAX ->
      debt p1 + amount <= maxBorrowable p1 ->
      IERC20.pool (loanToken s) < amount ->
        run = (s, Failure InsufficientReserve)) /\
     (collateralAmount p1 * PRECISION <= Uint256.MAX ->
      debt p1 + amount <= maxBorrowable p1 ->
      amount <= IERC20.pool (loanToken s) ->
        let s' := borrowed s1 env amount in
        run = (s', Success) /\
        IERC20.pool (loanToken s') = IERC20.pool (loanToken s) - amount /\
        IERC20.balanceOf (loanToken s') user
          = IERC20.balanceOf (loanToken s) user + amount /\
        collateralToken s' = collateralToken s /\
        loanAmount (position_of s' user)
          = loanAmount (position_of s user) + amount /\
        lastInterestUpdate (position_of s' user) = block_timestamp env /\
        accumulatedInterest (position_of s' user) = accumulatedInterest p1 /\
        collateralAmount (position_of s' user)
          = collateralAmount (position_of s user))).
Proof.
  cbv zeta.
  destruct (borrow_cases env amount s)
    as [? Hr|? Hc Hr|? ? Hu Hr|s1 p1 ? ? Hu Hc Hr|s1 p1 ? ? Hu ? ? Hc Hr
       |s1 p1 ? ? Hu ? ? Hc Hr|s1 p1 ? ? Hu ? ? Hc Hr];
    try subst p1;
    try (apply call_Revert in Hr); try (apply call_Ok in Hr); rewrite Hr;
    try (pose proof (updateInterest_frame _ _ _ _ Hu) as (Hct & Hlt & _ & Hcl & Hl & _));
    try rewrite Hlt in *;
    (split_and!; intros; try done; try (exfalso; lia); try congruence);
    try (assert (s0 = s1) as -> by congruence);
    try (assert (Hdiv : maxBorrowable (position_of s1 (msg_sender env))
                        <= collateralAmount (position_of s1 (msg_sender env)) * PRECISION)
           by (apply N.Div0.div_le_upper_bound; unfold COLLATERALIZATION_RATIO; lia));
    (split_and!; intros; try done; try (exfalso; lia)).
  unfold borrowed.
  rewrite !position_of_set_loanToken, !position_of_update_eq.
  rewrite Hlt. split_and!; simpl; try done; try lia.
  apply balanceOf_paid_out.
Qed.

(** ** The other operations *)

Lemma deposit_cases env amount s : deposit_outcome env amount s.
Proof.
  set (user := msg_sender env). unfold depositCollateral.
  destruct (N.ltb_spec 0 amount) as [Ha|Ha]; cycle 1.
  { apply deposit_invalid_amount; [lia|].
    unfold depositCollateral. apply bind_require_false. by apply N.ltb_ge. }
  assert (Ha' : (0 <? amount) = true) by by apply N.ltb_lt.
  destruct (N.le_gt_cases amount (IERC20.balanceOf (collateralToken s) user))
    as [Hb|Hb]; cycle 1.
  { apply deposit_transfer_failed; [done|by left|].
    unfold depositCollateral. rewrite (bind_require_true _ _ _ _ Ha').
    apply bind_collateral_call_Reverted, transferFrom_Reverted. by left. }
  destruct (N.le_gt_cases amount (IERC20.allowance (collateralToken s) user))
    as [Hw|Hw]; cycle 1.
  { apply deposit_transfer_failed; [done|by right|].
    unfold depositCollateral. rewrite (bind_require_true _ _ _ _ Ha').
    apply bind_collateral_call_Reverted, transferFrom_Reverted. by right. }
  pose proof (transferFrom_Transferred _ _ _ Hb Hw) as Ht.
  destruct (N.le_gt_cases (collateralAmount (position_of s user) + amount)
              Uint256.MAX) as [Hc|Hc]; cycle 1.
  { apply deposit_overflow; try done.
    unfold depositCollateral. rewrite (bind_require_true _ _ _ _ Ha').
    rewrite (bind_collateral_call_Transferred _ _ _ _ _ Ht), bind_load.
    rewrite position_of_set_collateralToken.
    apply bind_checked_None. by apply add_None. }
  apply deposit_success; try done.
  unfold depositCollateral. rewrite (bind_require_true _ _ _ _ Ha').
  rewrite (bind_collateral_call_Transferred _ _ _ _ _ Ht), bind_load.
  rewrite position_of_set_collateralToken.
  rewrite (bind_checked_Some _ _ _ _ (add_Some _ _ Hc)).
  reflexivity.
Qed.

Lemma cleared_by_stores p :
  set_lastInterestUpdate 0 (set_accumulatedInterest 0 (set_loanAmount 0 p))
    = cleared p.
Proof. reflexivity. Qed.

Lemma repay_cases env s : repay_outcome env s.
Proof.
  set (user := msg_sender env).
  destruct (N.eq_0_gt_0_cases (loanAmount (position_of s user))) as [Hl|Hl].
  { apply repay_no_loan; [done|].
    unfold repay. rewrite bind_load. fold user.
    apply bind_require_false, N.ltb_ge. lia. }
  assert (Hl' : (0 <? loanAmount (position_of s user)) = true) by by apply N.ltb_lt.
  assert (Hstart : forall r,
    (_updateInterest env user;;
     position ← load user;
     totalDebt ← checked (Uint256.add (loanAmount position)
                                       (accumulatedInterest position));
     loan_call (IERC20.transferFrom user totalDebt) "Repayment transfer failed";;
     store user (set_loanAmount 0);;
     store user (set_accumulatedInterest 0);;
     store user (set_lastInterestUpdate 0)) s = r -> repay env s = r).
  { intros r <-. unfold repay. rewrite bind_load. fold user.
    by rewrite (bind_require_true _ _ _ _ Hl'). }
  destruct (_updateInterest env user s) as [[] s1|e d] eqn:Hu; cycle 1.
  { destruct (updateInterest_revert _ _ _ _ _ Hu) as [-> ->].
    apply repay_accrual_panic; try done. apply Hstart.
    by rewrite (bind_Revert _ _ _ _ _ Hu). }
  rewrite (bind_Ok _ _ _ _ _ Hu), bind_load in Hstart.
  set (p1 := position_of s1 user) in *. fold (debt p1) in Hstart.
  destruct (N.le_gt_cases (debt p1) Uint256.MAX) as [Hd|Hd]; cycle 1.
  { apply (repay_overflow _ _ s1); try done.
    apply Hstart, bind_checked_None. by apply add_None. }
  rewrite (bind_checked_Some _ _ _ _ (add_Some _ _ Hd)) in Hstart.
  fold (debt p1) in Hstart.
  destruct (N.le_gt_cases (debt p1) (IERC20.balanceOf (loanToken s1) user))
    as [Hb|Hb]; cycle 1.
  { apply (repay_transfer_failed _ _ s1); try done; [by left|].
    apply Hstart, bind_loan_call_Reverted, transferFrom_Reverted. by left. }
  destruct (N.le_gt_cases (debt p1) (IERC20.allowance (loanToken s1) user))
    as [Hw|Hw]; cycle 1.
  { apply (repay_transfer_failed _ _ s1); try done; [by right|].
    apply Hstart, bind_loan_call_Reverted, transferFrom_Reverted. by right. }
  apply (repay_success _ _ s1); try done.
  apply Hstart.
  rewrite (bind_loan_call_Transferred _ _ _ _ _ (transferFrom_Transferred _ _ _ Hb Hw)).
  rewrite !bind_store, store_update, !update_position_twice.
  rewrite !position_of_update_eq, position_of_set_loanToken.
  reflexivity.
Qed.

Lemma withdraw_cases env s : withdraw_outcome env s.
Proof.
  set (user := msg_sender env).
  destruct (N.eq_0_gt_0_cases (collateralAmount (position_of s user))) as [Hc|Hc].
  { apply withdraw_no_collateral; [done|].
    unfold withdrawCollateral. rewrite bind_load. fold user.
    apply bind_require_false, N.ltb_ge. lia. }
  assert (Hc' : (0 <? collateralAmount (position_of s user)) = true)
    by by apply N.ltb_lt.
  assert (Hstart : forall r,
    ((if 0 <? loanAmount (position_of s user)
      then _updateInterest env user else mret tt);;
     position ← load user;
     currentDebt ← checked (Uint256.add (loanAmount position)
                                         (accumulatedInterest position));
     require (currentDebt =? 0) "Cannot withdraw with active debt";;
     let collateralAmount_ := collateralAmount position in
     store user (set_collateralAmount 0);;
     collateral_call (IERC20.transfer user collateralAmount_)
                     "Collateral withdrawal failed") s = r ->
    withdrawCollateral env s = r).
  { intros r <-. unfold withdrawCollateral. rewrite bind_load. fold user.
    by rewrite (bind_require_true _ _ _ _ Hc'). }
  assert (Hview : forall s1,
    (if 0 <? loanAmount (position_of s user)
     then _updateInterest env user else mret tt) s = Ok tt s1 ->
    current_view env s s1).
  { intros s1. unfold current_view. fold user.
    destruct (N.ltb_spec 0 (loanAmount (position_of s user))).
    - intros. by right.
    - intros [= <-]. left. split; [lia|done]. }
  destruct ((if 0 <? loanAmount (position_of s user)
             then _updateInterest env user else mret tt) s)
    as [[] s1|e d] eqn:Hu; cycle 1.
  { destruct (N.ltb_spec 0 (loanAmount (position_of s user))); [|done].
    destruct (updateInterest_revert _ _ _ _ _ Hu) as [-> ->].
    apply withdraw_accrual_panic; try done. apply Hstart.
    by rewrite (bind_Revert _ _ _ _ _ Hu). }
  specialize (Hview s1 eq_refl).
  rewrite (bind_Ok _ _ _ _ _ Hu), bind_load in Hstart.
  set (p1 := position_of s1 user) in *. fold (debt p1) in Hstart.
  destruct (N.le_gt_cases (debt p1) Uint256.MAX) as [Hd|Hd]; cycle 1.
  { apply (withdraw_overflow _ _ s1); try done.
    apply Hstart, bind_checked_None. by apply add_None. }
  rewrite (bind_checked_Some _ _ _ _ (add_Some _ _ Hd)) in Hstart.
  fold (debt p1) in Hstart.
  destruct (N.eqb_spec (debt p1) 0) as [Hz|Hz]; cycle 1.
  { apply (withdraw_active_debt _ _ s1); try done; [fold user p1; lia|].
    by apply Hstart, bind_require_false. }
  rewrite bind_require_true in Hstart by done. cbv zeta in Hstart.
  rewrite bind_store in Hstart.
  assert (s1 = s) as Hs.
  { destruct Hview as [[_ ?]|[Hl Hv]]; [done|].
    apply updateInterest_frame in Hv as (_ & _ & _ & _ & Hl' & _).
    fold user p1 in Hl'. unfold debt in Hz. fold user in Hl. lia. }
  subst p1. rewrite Hs in *. clear Hs Hu.
  destruct (N.le_gt_cases (collateralAmount (position_of s user))
              (IERC20.pool (collateralToken s))) as [Hp|Hp]; cycle 1.
  { apply withdraw_transfer_failed; try done.
    apply Hstart.
    exact (collateral_call_Reverted _ _ (update_position s user _)
             (transfer_Reverted user _ (collateralToken s) Hp)). }
  apply withdraw_success; try done.
  apply Hstart.
  exact (collateral_call_Transferred _ _ (update_position s user _) _
           (transfer_Transferred user _ (collateralToken s) Hp)).
Qed.

Lemma onlyOwner_pass {B} (f : unit -> M B) env s :
  msg_sender env = owner s -> (onlyOwner env ≫= f) s = f tt s.
Proof.
  intros H. unfold mbind, M_bind, onlyOwner. by apply N.eqb_eq in H as ->.
Qed.

Lemma onlyOwner_fail {B} (f : unit -> M B) env s :
  msg_sender env <> owner s ->
  (onlyOwner env ≫= f) s = Revert OwnableUnauthorizedAccount s.
Proof.
  intros H. unfold mbind, M_bind, onlyOwner. by apply N.eqb_neq in H as ->.
Qed.

Lemma fund_cases env amount s : fund_outcome env amount s.
Proof.
  destruct (decide (msg_sender env = owner s)) as [Ho|Ho]; cycle 1.
  { apply fund_unauthorized; [done|]. by apply onlyOwner_fail. }
  destruct (N.le_gt_cases amount (IERC20.balanceOf (loanToken s) (msg_sender env)))
    as [Hb|Hb]; cycle 1.
  { apply fund_transfer_failed; [done|by left|].
    unfold fundContract. rewrite (onlyOwner_pass _ _ _ Ho).
    apply loan_call_Reverted, transferFrom_Reverted. by left. }
  destruct (N.le_gt_cases amount (IERC20.allowance (loanToken s) (msg_sender env)))
    as [Hw|Hw]; cycle 1.
  { apply fund_transfer_failed; [done|by right|].
    unfold fundContract. rewrite (onlyOwner_pass _ _ _ Ho).
    apply loan_call_Reverted, transferFrom_Reverted. by right. }
  apply fund_success; try done.
  unfold fundContract. rewrite (onlyOwner_pass _ _ _ Ho).
  by apply loan_call_Transferred, transferFrom_Transferred.
Qed.

Lemma withdrawExcess_cases env amount s : withdrawExcess_outcome env amount s.
Proof.
  destruct (decide (msg_sender env = owner s)) as [Ho|Ho]; cycle 1.
  { apply excess_unauthorized; [done|]. by apply onlyOwner_fail. }
  destruct (N.le_gt_cases amount (IERC20.pool (loanToken s))) as [Hp|Hp]; cycle 1.
  { apply excess_transfer_failed; try done.
    unfold withdrawExcess. rewrite (onlyOwner_pass _ _ _ Ho).
    by apply loan_call_Reverted, transfer_Reverted. }
  apply excess_success; try done.
  unfold withdrawExcess. rewrite (onlyOwner_pass _ _ _ Ho).
  by apply loan_call_Transferred, transfer_Transferred.
Qed.

(** ** Successful calls *)

Lemma deposit_Ok_inv env amount s s' :
  depositCollateral env amount s = Ok tt s' ->
  0 < amount /\
  amount <= IERC20.balanceOf (collateralToken s) (msg_sender env) /\
  s' = deposited s env amount.
Proof.
  intros Hd.
  destruct (deposit_cases env amount s) as [? Hr|? ? Hr|? ? ? ? Hr|? ? ? ? Hr];
    rewrite Hr in Hd; try discriminate.
  by injection Hd as <-.
Qed.

Lemma repay_Ok_inv env s s' :
  repay env s = Ok tt s' ->
  exists s1,
    0 < loanAmount (position_of s (msg_sender env)) /\
    _updateInterest env (msg_sender env) s = Ok tt s1 /\
    debt (position_of s1 (msg_sender env))
      <= IERC20.balanceOf (loanToken s1) (msg_sender env) /\
    s' = repaid s1 env.
Proof.
  intros Hd.
  destruct (repay_cases env s)
    as [? Hr|? ? Hr|s1 ? ? ? Hr|s1 t ? ? ? ? Hr|s1 t ? ? ? ? ? Hr];
    rewrite Hr in Hd; try discriminate.
  injection Hd as <-. exists s1. by subst t.
Qed.

Lemma withdraw_Ok_inv env s s' :
  withdrawCollateral env s = Ok tt s' ->
  0 < collateralAmount (position_of s (msg_sender env)) /\
  debt (position_of s (msg_sender env)) = 0 /\
  s' = withdrawn s env.
Proof.
  intros Hd.
  destruct (withdraw_cases env s)
    as [? Hr|? ? ? Hr|s1 ? ? ? Hr|s1 ? ? ? Hr|? ? ? Hr|? ? ? Hr];
    rewrite Hr in Hd; try discriminate.
  by injection Hd as <-.
Qed.

Lemma fund_Ok_inv env amount s s' :
  fundContract env amount s = Ok tt s' ->
  s' = set_loanToken s (IERC20.pulled_in (msg_sender env) amount (loanToken s)).
Proof.
  intros Hd.
  destruct (fund_cases env amount s) as [? Hr|? ? Hr|? ? ? Hr];
    rewrite Hr in Hd; try discriminate.
  by injection Hd as <-.
Qed.

Lemma withdrawExcess_Ok_inv env amount s s' :
  withdrawExcess env amount s = Ok tt s' ->
  amount <= IERC20.pool (loanToken s) /\
  s' = set_loanToken s (IERC20.paid_out (msg_sender env) amount (loanToken s)).
Proof.
  intros Hd.
  destruct (withdrawExcess_cases env amount s) as [? Hr|? ? Hr|? ? Hr];
    rewrite Hr in Hd; try discriminate.
  by injection Hd as <-.
Qed.

(** ** Repayment *)



(** ** Failures *)

Lemma exec_Revert_written env op s e dirty :
  exec env op s = Revert e dirty -> written_before_failure env op s dirty.
Proof.
  intros He. unfold written_before_failure.
  destruct op as [amount|amount| | |amount|amount]; simpl in He.
  - destruct (deposit_cases env amount s) as [? Hr|? ? Hr|? ? ? ? Hr|? ? ? ? Hr];
      rewrite Hr in He; inversion He; subst; clear He; [by left|by left|].
    right; right; left. by exists amount.
  - destruct (borrow_cases env amount s)
      as [? Hr|? ? Hr|? ? ? Hr|s1 p1 ? ? Hu ? Hr|s1 p1 ? ? Hu ? ? ? Hr
         |s1 p1 ? ? Hu ? ? ? Hr|s1 p1 ? ? Hu ? ? ? Hr];
      rewrite Hr in He; inversion He; subst; clear He;
      first [by left | right; by left].
  - destruct (repay_cases env s)
      as [? Hr|? ? Hr|s1 ? Hu ? Hr|s1 t ? Hu ? ? Hr|s1 t ? Hu ? ? ? Hr];
      rewrite Hr in He; inversion He; subst; clear He;
      first [by left | right; by left].
  - destruct (withdraw_cases env s)
      as [? Hr|? ? ? Hr|s1 ? Hv ? Hr|s1 ? Hv ? Hr|? ? ? Hr|? ? ? Hr];
      rewrite Hr in He; inversion He; subst; clear He.
    + by left.
    + by left.
    + destruct Hv as [[_ ->]|[_ Hu]]; [by left|right; by left].
    + destruct Hv as [[_ ->]|[_ Hu]]; [by left|right; by left].
    + right; right; right. done.
  - destruct (fund_cases env amount s) as [? Hr|? ? Hr|? ? ? Hr];
      rewrite Hr in He; inversion He; subst; by left.
  - destruct (withdrawExcess_cases env amount s) as [? Hr|? ? Hr|? ? Hr];
      rewrite Hr in He; inversion He; subst; by left.
Qed.

Lemma withdraw_with_loan env s :
  0 < loanAmount (position_of s (msg_sender env)) ->
  exists e dirty,
    withdrawCollateral env s = Revert e dirty /\
    (0 < collateralAmount (position_of s (msg_sender env)) ->
     forall s1, _updateInterest env (msg_sender env) s = Ok tt s1 ->
       debt (position_of s1 (msg_sender env)) <= Uint256.MAX ->
       e = ActiveDebt /\ dirty = s1).
Proof.
  intros Hl.
  destruct (withdraw_cases env s)
    as [Hc Hr|? ? Hu Hr|s2 ? Hv ? Hr|s2 ? Hv ? Hr|? Hz ? Hr|? Hz ? Hr];
    try (exfalso; unfold debt in Hz; lia);
    eexists _, _; (split; [exact Hr|]); intros Hpos s1 Hu1 Hfit.
  - exfalso; lia.
  - congruence.
  - destruct Hv as [[? _]|[_ Hu]]; [exfalso; lia|].
    assert (s2 = s1) as -> by congruence. exfalso; lia.
  - destruct Hv as [[? _]|[_ Hu]]; [exfalso; lia|].
    split; [done|congruence].
Qed.

(** C5.  When a deposit, borrow, repay or withdrawal (or an owner
    operation) fails, the ledger after the call is exactly the ledger
    before it, whatever the operation had written by then: nothing, the
    accrual of the caller's interest, the tokens pulled in by a deposit,
    or the collateral zeroed by a withdrawal.  In particular
    [withdrawCollateral] with a principal always fails; when its accrual
    goes through it fails at the ActiveDebt check on the accrued state,
    and the stored position, accumulated interest and accrual time
    included, is as before the call. *)
Theorem failure_is_atomic :
  (forall env op s s' e,
     call (exec env op) s = (s', Failure e) ->
     s' = s /\
     exists dirty,
       exec env op s = Revert e dirty /\ written_before_failure env op s dirty) /\
  (forall env s,
     0 < loanAmount (position_of s (msg_sender env)) ->
     exists e dirty,
       withdrawCollateral env s = Revert e dirty /\
       call (exec env WithdrawCollateral) s = (s, Failure e) /\
       (0 < collateralAmount (position_of s (msg_sender env)) ->
        forall s1, _updateInterest env (msg_sender env) s = Ok tt s1 ->
          debt (position_of s1 (msg_sender env)) <= Uint256.MAX ->
          e = ActiveDebt /\ dirty = s1)).
Proof.
  split.
  - intros env op s s' e. unfold call.
    destruct (exec env op s) as [a s1|e1 d] eqn:He; [done|].
    intros [= <- <-]. split; [done|].
    exists d. split; [done|]. by apply (exec_Revert_written _ _ _ _ _ He).
  - intros env s Hl.
    destruct (withdraw_with_loan env s Hl) as (e & dirty & Hr & Hacc).
    exists e, dirty. split; [exact Hr|]. split; [|exact Hacc].
    by apply call_Revert in Hr.
Qed.

Lemma failure_is_atomic_witness :
  position_of (borrowed_at 10) alice = mkPosition 1500 1000 10 0 /\
  withdrawCollateral (as_alice (10 + WEEK)) (borrowed_at 10)
    = Revert ActiveDebt
        (update_position (borrowed_at 10) alice
           (mkPosition 1500 1000 (10 + WEEK) 50)) /\
  call (exec (as_alice (10 + WEEK)) WithdrawCollateral) (borrowed_at 10)
    = (borrowed_at 10, Failure ActiveDebt) /\
  exists dirty,
    exec (as_alice (10 + WEEK)) WithdrawCollateral (borrowed_at 10)
      = Revert ActiveDebt dirty /\
    written_before_failure (as_alice (10 + WEEK)) WithdrawCollateral
      (borrowed_at 10) dirty.
Proof.
  split; [by vm_compute|]. split; [by vm_compute|].
  assert (Hc : call (exec (as_alice (10 + WEEK)) WithdrawCollateral) (borrowed_at 10)
               = (borrowed_at 10, Failure ActiveDebt)) by by vm_compute.
  split; [exact Hc|].
  exact (proj2 (proj1 failure_is_atomic _ _ _ _ _ Hc)).
Defined.

(** ** The settled-position invariant *)

Lemma updateInterest_settled env user s s1 :
  _updateInterest env user s = Ok tt s1 -> all_settled s -> all_settled s1.
Proof.
  intros Hu Hs other.
  destruct (updateInterest_outcome env user s)
    as [q ? Hq|q j Hl ? ? ? ? ? Hq|q j ? ? ? Hq];
    rewrite Hq in Hu; inversion Hu; subst; clear Hu; [done|].
  rewrite position_of_update. case_decide; [|done].
  unfold settled, accrued; simpl. subst q. lia.
Qed.

Lemma exec_settled env op s s' :
  exec env op s = Ok tt s' -> all_settled s -> all_settled s'.
Proof.
  intros He Hs other. destruct op as [amount|amount| | |amount|amount]; simpl in He.
  - apply deposit_Ok_inv in He as (_ & _ & ->). unfold deposited.
    rewrite position_of_update. case_decide as Hu; [|apply Hs].
    specialize (Hs (msg_sender env)). by unfold settled in *.
  - apply borrow_Ok_inv in He as (s1 & Hu & Ha & _ & _ & ->).
    apply (updateInterest_settled _ _ _ _ Hu) in Hs.
    unfold borrowed. rewrite position_of_set_loanToken, position_of_update.
    case_decide; [|apply Hs]. unfold settled, drawn; simpl. lia.
  - apply repay_Ok_inv in He as (s1 & _ & Hu & _ & ->).
    apply (updateInterest_settled _ _ _ _ Hu) in Hs.
    unfold repaid. rewrite position_of_update.
    case_decide; [done|]. rewrite position_of_set_loanToken. apply Hs.
  - apply withdraw_Ok_inv in He as (_ & _ & ->). unfold withdrawn.
    rewrite position_of_set_collateralToken, position_of_update.
    case_decide; [|apply Hs].
    specialize (Hs (msg_sender env)). by unfold settled in *.
  - apply fund_Ok_inv in He as ->. apply Hs.
  - apply withdrawExcess_Ok_inv in He as (_ & ->). apply Hs.
Qed.

Lemma step_settled env op s : all_settled s -> all_settled (step env op s).
Proof.
  intros Hs. unfold step, call.
  destruct (exec env op s) as [[] s'|e d] eqn:He; [|done].
  by apply (exec_settled _ _ _ _ He).
Qed.

(** C6.  In every state reached from a ledger without positions by any
    sequence of deposits, borrows, repayments and withdrawals (and owner
    operations) at non-decreasing times, every position with a zero
    principal has zero accumulated interest and a zero (unset) accrual
    time; and every operation preserves this, from any state and at any
    time. *)
Theorem settled_invariant :
  (forall t s, reachable t s ->
     forall user,
       loanAmount (position_of s user) = 0 ->
       accumulatedInterest (position_of s user) = 0 /\
       lastInterestUpdate (position_of s user) = 0) /\
  (forall env op s, all_settled s -> all_settled (step env op s)).
Proof.
  split; [|apply step_settled].
  intros t s Hreach. change (all_settled s).
  induction Hreach as [s Hempty|t s env op _ IH _].
  - intros user _. unfold position_of. by rewrite Hempty, lookup_empty.
  - by apply step_settled.
Qed.

(** ** Deposit followed by withdrawal *)

(** C8 (counterexample).  A participant without debt holds 500 of
    collateral, deposits 100 and then withdraws successfully: the
    collateral is 0 afterwards, not the 500 held before the deposit. *)
Lemma deposit_withdraw_does_not_restore :
  loanAmount (position_of saver_ledger alice) = 0 /\
  accumulatedInterest (position_of saver_ledger alice) = 0 /\
  collateralAmount (position_of saver_ledger alice) = 500 /\
  0 < 100 /\
  call (depositCollateral (as_alice 0) 100) saver_ledger
    = (step (as_alice 0) (DepositCollateral 100) saver_ledger, Success) /\
  call (withdrawCollateral (as_alice 0))
       (step (as_alice 0) (DepositCollateral 100) saver_ledger)
    = (step (as_alice 0) WithdrawCollateral
         (step (as_alice 0) (DepositCollateral 100) saver_ledger), Success) /\
  collateralAmount
    (position_of
       (step (as_alice 0) WithdrawCollateral
          (step (as_alice 0) (DepositCollateral 100) saver_ledger)) alice) = 0 /\
  collateralAmount
    (position_of
       (step (as_alice 0) WithdrawCollateral
          (step (as_alice 0) (DepositCollateral 100) saver_ledger)) alice)
    <> collateralAmount (position_of saver_ledger alice).
Proof. vm_compute. split_and!; congruence. Qed.

(** C8 (as amended).  A deposit of [X] followed by a successful
    [withdrawCollateral] of the same participant (who then has no debt and
    [X > 0]) leaves the position's collateral at zero and returns the whole
    collateral, the pre-deposit amount plus [X], to the participant, whose
    collateral-token balance ends at its pre-deposit value plus the
    pre-deposit collateral.  The collateral is back at its pre-deposit
    value exactly when that value was zero. *)
Theorem deposit_then_withdraw env now' amount s s1 s2 :
  let user := msg_sender env in
  let env' := {| msg_sender := user; block_timestamp := now' |} in
  call (depositCollateral env amount) s = (s1, Success) ->
  call (withdrawCollateral env') s1 = (s2, Success) ->
  0 < amount /\
  debt (position_of s user) = 0 /\
  collateralAmount (position_of s1 user)
    = collateralAmount (position_of s user) + amount /\
  collateralAmount (position_of s2 user) = 0 /\
  IERC20.balanceOf (collateralToken s2) user
    = IERC20.balanceOf (collateralToken s) user
      + collateralAmount (position_of s user) /\
  (collateralAmount (position_of s2 user) = collateralAmount (position_of s user)
   <-> collateralAmount (position_of s user) = 0).
Proof.
  cbv zeta. intros [[] Hd]%call_Success_inv [[] Hw]%call_Success_inv.
  apply deposit_Ok_inv in Hd as (Ha & Hb & ->).
  apply withdraw_Ok_inv in Hw as (_ & Hz & ->). simpl in *.
  unfold withdrawn, deposited in *. simpl in *.
  rewrite position_of_update_eq in Hz.
  rewrite position_of_set_collateralToken, !position_of_update_eq.
  unfold debt in *; simpl in *.
  split_and!; try done; try (split; intros; lia).
  rewrite balanceOf_paid_out, balanceOf_pulled_in. lia.
Qed.

Lemma deposit_then_withdraw_witness :
  call (depositCollateral (as_alice 0) 100) saver_ledger
    = (step (as_alice 0) (DepositCollateral 100) saver_ledger, Success) /\
  call (withdrawCollateral (as_alice 5))
       (step (as_alice 0) (DepositCollateral 100) saver_ledger)
    = (step (as_alice 5) WithdrawCollateral
         (step (as_alice 0) (DepositCollateral 100) saver_ledger), Success) /\
  collateralAmount
    (position_of
       (step (as_alice 5) WithdrawCollateral
          (step (as_alice 0) (DepositCollateral 100) saver_ledger)) alice) = 0 /\
  IERC20.balanceOf
    (collateralToken
       (step (as_alice 5) WithdrawCollateral
          (step (as_alice 0) (DepositCollateral 100) saver_ledger))) alice
    = IERC20.balanceOf (collateralToken saver_ledger) alice
      + collateralAmount (position_of saver_ledger alice).
Proof.
  assert (Hd : call (depositCollateral (as_alice 0) 100) saver_ledger
    = (step (as_alice 0) (DepositCollateral 100) saver_ledger, Success))
    by by vm_compute.
  assert (Hw : call (withdrawCollateral (as_alice 5))
       (step (as_alice 0) (DepositCollateral 100) saver_ledger)
    = (step (as_alice 5) WithdrawCollateral
         (step (as_alice 0) (DepositCollateral 100) saver_ledger), Success))
    by by vm_compute.
  split; [exact Hd|]. split; [exact Hw|].
  destruct (deposit_then_withdraw (as_alice 0) 5 100 _ _ _ Hd Hw)
    as (_ & _ & _ & Hz & Hb & _).
  split; [exact Hz|exact Hb].
Defined.

(** ** Owner operations *)

(** C9.  Whatever the amount and whether they succeed or fail,
    [fundContract] and [withdrawExcess] leave every position, the
    collateral token (its pool included) and the owner unchanged; a
    successful call moves exactly [amount] into, respectively out of, the
    loan-token reserve.  [withdrawExcess] called by the owner succeeds for
    every amount up to the whole reserve, whatever loans are outstanding,
    and only for such amounts. *)
Theorem owner_operations_frame env amount s :
  (forall s' r, call (fundContract env amount) s = (s', r) ->
     userPositions s' = userPositions s /\
     collateralToken s' = collateralToken s /\
     owner s' = owner s /\
     (r = Success ->
      IERC20.pool (loanToken s') = IERC20.pool (loanToken s) + amount)) /\
  (forall s' r, call (withdrawExcess env amount) s = (s', r) ->
     userPositions s' = userPositions s /\
     collateralToken s' = collateralToken s /\
     owner s' = owner s /\
     (r = Success ->
      amount <= IERC20.pool (loanToken s) /\
      IERC20.pool (loanToken s') = IERC20.pool (loanToken s) - amount)) /\
  (msg_sender env = owner s -> amount <= IERC20.pool (loanToken s) ->
     call (withdrawExcess env amount) s
       = (set_loanToken s (IERC20.paid_out (msg_sender env) amount (loanToken s)),
          Success)).
Proof.
  split_and!.
  - intros s' r. unfold call.
    destruct (fundContract env amount s) as [[] s1|e d] eqn:Hf; intros [= <- <-].
    + by apply fund_Ok_inv in Hf as ->.
    + done.
  - intros s' r. unfold call.
    destruct (withdrawExcess env amount s) as [[] s1|e d] eqn:Hf; intros [= <- <-].
    + by apply withdrawExcess_Ok_inv in Hf as (? & ->).
    + done.
  - intros Ho Hp.
    destruct (withdrawExcess_cases env amount s) as [? Hr|? ? Hr|? ? Hr];
      try (exfalso; lia).
    by apply call_Ok in Hr.
Qed.

Lemma owner_operations_frame_witness :
  loanAmount (position_of (borrowed_at 10) alice) = 1000 /\
  IERC20.pool (loanToken (borrowed_at 10)) = 99000 /\
  call (withdrawExcess (as_admin 20) 99000) (borrowed_at 10)
    = (set_loanToken (borrowed_at 10)
         (IERC20.paid_out admin 99000 (loanToken (borrowed_at 10))), Success) /\
  IERC20.pool (loanToken (step (as_admin 20) (WithdrawExcess 99000) (borrowed_at 10)))
    = 0 /\
  position_of (step (as_admin 20) (WithdrawExcess 99000) (borrowed_at 10)) alice
    = mkPosition 1500 1000 10 0.
Proof.
  split; [by vm_compute|]. split; [by vm_compute|].
  split; [|split; by vm_compute].
  apply (proj2 (proj2 (owner_operations_frame (as_admin 20) 99000 (borrowed_at 10))));
    by vm_compute.
Defined.

(** ** Splitting accrual over several calls *)

Ltac Zify.zify_post_hook ::= Z.to_euclidean_division_equations.

Lemma newInterest_superadditive P k1 k2 :
  newInterest P k1 + newInterest P k2 <= newInterest P (k1 + k2).
Proof.
  unfold newInterest, PRECISION.
  replace (P * INTEREST_RATE * (k1 + k2))
    with (P * INTEREST_RATE * k1 + P * INTEREST_RATE * k2) by lia.
  generalize (P * INTEREST_RATE * k1) (P * INTEREST_RATE * k2). intros a b. lia.
Qed.

Lemma newInterest_mono P k k' : k <= k' -> newInterest P k <= newInterest P k'.
Proof.
  intros H. unfold newInterest.
  apply N.Div0.div_le_mono, N.mul_le_mono_l, H.
Qed.

Lemma weeks_superadditive l t1 t2 :
  l <= t1 -> t1 <= t2 -> (t1 - l) / WEEK + (t2 - t1) / WEEK <= (t2 - l) / WEEK.
Proof. intros. unfold WEEK. lia. Qed.

Ltac pick_weeks k := exists k, k; unfold newInterest, INTEREST_RATE, PRECISION; lia.

Lemma newInterest_strict P :
  (P * INTEREST_RATE) mod PRECISION <> 0 ->
  exists k1 k2, 1 <= k1 /\ 1 <= k2 /\
    newInterest P k1 + newInterest P k2 < newInterest P (k1 + k2).
Proof.
  unfold INTEREST_RATE, PRECISION. intros H.
  assert (Hr : exists q r, P = 20 * q + r /\ 1 <= r <= 19)
    by (exists (P / 20), (P mod 20); lia).
  destruct Hr as (q & r & -> & Hr). clear H.
  assert (Hcases : r = 1 \/ r = 2 \/ r = 3 \/ r = 4 \/ r = 5 \/ r = 6 \/ r = 7 \/
                   r = 8 \/ r = 9 \/ 10 <= r) by lia.
  destruct Hcases as [->|[->|[->|[->|[->|[->|[->|[->|[->|Hge]]]]]]]]].
  - pick_weeks 10.
  - pick_weeks 5.
  - pick_weeks 4.
  - pick_weeks 3.
  - pick_weeks 2.
  - pick_weeks 2.
  - pick_weeks 2.
  - pick_weeks 2.
  - pick_weeks 2.
  - pick_weeks 1.
Qed.

Lemma split_accrual_le env1 env2 user s s1 s2 s2' :
  _updateInterest env1 user s = Ok tt s1 ->
  _updateInterest env2 user s1 = Ok tt s2 ->
  _updateInterest env2 user s = Ok tt s2' ->
  accumulatedInterest (position_of s2 user)
    <= accumulatedInterest (position_of s2' user).
Proof.
  intros H1 H2 H3.
  destruct (updateInterest_outcome env1 user s)
    as [p _ Hq|p k1 Hl Ht Hle1 Hk1 _ _ Hq|p k1 _ _ _ Hq];
    rewrite Hq in H1; inversion H1; subst s1; clear H1 Hq.
  { rewrite H2 in H3. by injection H3 as <-. }
  assert (Hk : k1 + weeksElapsed (accrued p (block_timestamp env1) k1)
                     (block_timestamp env2)
               <= weeksElapsed p (block_timestamp env2)
               \/ ~ block_timestamp env1 <= block_timestamp env2).
  { destruct (N.le_gt_cases (block_timestamp env1) (block_timestamp env2));
      [left|right; lia].
    subst k1. unfold weeksElapsed; simpl. by apply weeks_superadditive. }
  assert (Hacc : accumulatedInterest (position_of s2 user)
                 <= accumulatedInterest p
                    + newInterest (loanAmount p) (weeksElapsed p (block_timestamp env2))
                 /\ 0 < weeksElapsed p (block_timestamp env2)).
  { destruct (updateInterest_outcome env2 user
                (update_position s user (accrued p (block_timestamp env1) k1)))
      as [p1 Hc Hq|p1 k2 _ _ Hle2 Hk2 _ _ Hq|p1 k2 _ _ _ Hq];
      rewrite Hq in H2; inversion H2; subst s2; clear H2 Hq;
      try subst k2; subst p1; rewrite ?position_of_update_eq in *; simpl in *;
      (destruct Hk as [Hk|Hk]; [|lia]);
      pose proof (newInterest_mono (loanAmount p) _ _ Hk);
      pose proof (newInterest_superadditive (loanAmount p) k1
        (weeksElapsed (accrued p (block_timestamp env1) k1) (block_timestamp env2)));
      lia. }
  destruct Hacc as [Hacc Hpos].
  destruct (updateInterest_outcome env2 user s)
    as [p' Hc Hq|p' k _ _ _ _ _ _ Hq|p' k _ _ _ Hq];
    rewrite Hq in H3; inversion H3; subst s2'; clear H3 Hq; subst p'.
  - fold p in Hc. lia.
  - by rewrite position_of_update_eq.
Qed.

(** C10.  Interest charged in two accruals over [k1] and [k2] whole weeks
    never exceeds the interest of one accrual over [k1 + k2] weeks; for
    every principal [P] with [P * 5] not divisible by 100 some split is
    strictly cheaper.  On the contract: accruing at an intermediate time
    and then at [now] leaves at most the accumulated interest that a single
    accrual at [now] leaves, and for a loan of 10 two weekly accruals leave
    0 where one accrual after two weeks leaves 1, so the total depends on
    when accrual is triggered. *)
Theorem split_accrual_never_charges_more :
  (forall P k1 k2,
     newInterest P k1 + newInterest P k2 <= newInterest P (k1 + k2)) /\
  (forall P, (P * INTEREST_RATE) mod PRECISION <> 0 ->
     exists k1 k2, 1 <= k1 /\ 1 <= k2 /\
       newInterest P k1 + newInterest P k2 < newInterest P (k1 + k2)) /\
  (forall env1 env2 user s s1 s2 s2',
     _updateInterest env1 user s = Ok tt s1 ->
     _updateInterest env2 user s1 = Ok tt s2 ->
     _updateInterest env2 user s = Ok tt s2' ->
     accumulatedInterest (position_of s2 user)
       <= accumulatedInterest (position_of s2' user)) /\
  (exists s1 s2 s2',
     _updateInterest (as_alice (10 + WEEK)) alice small_loan = Ok tt s1 /\
     _updateInterest (as_alice (10 + 2 * WEEK)) alice s1 = Ok tt s2 /\
     _updateInterest (as_alice (10 + 2 * WEEK)) alice small_loan = Ok tt s2' /\
     loanAmount (position_of small_loan alice) = 10 /\
     accumulatedInterest (position_of s2 alice) = 0 /\
     accumulatedInterest (position_of s2' alice) = 1).
Proof.
  split_and!.
  - apply newInterest_superadditive.
  - apply newInterest_strict.
  - apply split_accrual_le.
  - exists (update_position small_loan alice (mkPosition 1500 10 (10 + WEEK) 0)),
      (update_position small_loan alice (mkPosition 1500 10 (10 + 2 * WEEK) 0)),
      (update_position small_loan alice (mkPosition 1500 10 (10 + 2 * WEEK) 1)).
    split_and!; by vm_compute.
Qed.

(** ** The scenarios of the specification *)

(** Scenario A: deposit 1500, borrow 1000 succeeds. *)
Example scenario_A :
  call (borrow (as_alice 10) 1000)
       (step (as_alice 10) (DepositCollateral 1500) genesis)
    = (borrowed_at 10, Success) /\
  position_of (borrowed_at 10) alice = mkPosition 1500 1000 10 0.
Proof. by vm_compute. Qed.

(** Scenario B: deposit 1000, borrow 700 exceeds the capacity of 666. *)
Example scenario_B :
  maxBorrowable (mkPosition 1000 0 0 0) = 666 /\
  snd (call (borrow (as_alice 10) 700)
            (step (as_alice 10) (DepositCollateral 1000) genesis))
    = Failure ExceedsCapacity.
Proof. by vm_compute. Qed.

(** Scenario C: after one week the projected interest is 50, and still 50
    three days later. *)
Example scenario_C :
  getUserData (as_alice (10 + WEEK)) alice (borrowed_at 10)
    = Ok (1500, 1000, 50) (borrowed_at 10) /\
  getUserData (as_alice (10 + WEEK + 3 * 24 * 60 * 60)) alice (borrowed_at 10)
    = Ok (1500, 1000, 50) (borrowed_at 10).
Proof. by vm_compute. Qed.

(** Scenario D: repaying after one week takes 1050 and clears the loan;
    the withdrawal that follows returns the 1500 of collateral. *)
Example scenario_D :
  IERC20.balanceOf (loanToken (borrowed_at 10)) alice
    - IERC20.balanceOf
        (loanToken (step (as_alice (10 + WEEK)) Repay (borrowed_at 10))) alice
    = 1050 /\
  position_of (step (as_alice (10 + WEEK)) Repay (borrowed_at 10)) alice
    = mkPosition 1500 0 0 0 /\
  call (withdrawCollateral (as_alice (10 + WEEK)))
       (step (as_alice (10 + WEEK)) Repay (borrowed_at 10))
    = (withdrawn (step (as_alice (10 + WEEK)) Repay (borrowed_at 10))
         (as_alice (10 + WEEK)), Success) /\
  IERC20.balanceOf
    (collateralToken
       (withdrawn (step (as_alice (10 + WEEK)) Repay (borrowed_at 10))
          (as_alice (10 + WEEK)))) alice
    = IERC20.balanceOf (collateralToken genesis) alice.
Proof. by vm_compute. Qed.

(** * Further properties of the contract *)

(** ** Positions of other participants *)

Lemma exec_Ok_other env op s s' user :
  exec env op s = Ok tt s' -> msg_sender env <> user ->
  position_of s' user = position_of s user.
Proof.
  intros He Hne. destruct op as [amount|amount| | |amount|amount]; simpl in He.
  - apply deposit_Ok_inv in He as (_ & _ & ->). unfold deposited.
    by rewrite position_of_update_ne.
  - apply borrow_Ok_inv in He as (s1 & Hu & _ & _ & _ & ->).
    apply updateInterest_frame in Hu as (_ & _ & _ & _ & _ & _ & Ho).
    unfold borrowed.
    rewrite position_of_set_loanToken, position_of_update_ne by done. by apply Ho.
  - apply repay_Ok_inv in He as (s1 & _ & Hu & _ & ->).
    apply updateInterest_frame in Hu as (_ & _ & _ & _ & _ & _ & Ho).
    unfold repaid.
    rewrite position_of_update_ne, position_of_set_loanToken by done. by apply Ho.
  - apply withdraw_Ok_inv in He as (_ & _ & ->). unfold withdrawn.
    by rewrite position_of_set_collateralToken, position_of_update_ne.
  - by apply fund_Ok_inv in He as ->.
  - by apply withdrawExcess_Ok_inv in He as (_ & ->).
Qed.

(** X4.  Whatever a caller does, and whether it succeeds or fails, the
    position of every other participant is exactly as before. *)
Theorem other_positions_untouched env op s user :
  msg_sender env <> user ->
  position_of (step env op s) user = position_of s user.
Proof.
  intros Hne. unfold step, call.
  destruct (exec env op s) as [[] s'|e d] eqn:He; [|done].
  by apply (exec_Ok_other _ _ _ _ _ He).
Qed.

Lemma other_positions_untouched_witness :
  msg_sender (as_admin 20) <> alice /\
  position_of (step (as_admin 20) (WithdrawExcess 99000) (borrowed_at 10)) alice
    = position_of (borrowed_at 10) alice.
Proof.
  assert (H : msg_sender (as_admin 20) <> alice) by (by vm_compute).
  split; [exact H|].
  exact (other_positions_untouched (as_admin 20) (WithdrawExcess 99000)
           (borrowed_at 10) alice H).
Defined.

(** ** Deposits *)

(** X1.  [depositCollateral] fails on a zero amount, fails (with whatever
    error the refused token transfer produces) when the caller's
    collateral-token balance or allowance is below the amount, and panics
    when the recorded collateral would leave [uint256]; all state is then
    unchanged.  Otherwise it succeeds: the amount moves from
    the caller's balance (and allowance) into the collateral pool and is
    added to the caller's collateral, while principal, accumulated
    interest and accrual time stay as stored (no accrual is run), and the
    loan token is not touched. *)
Theorem deposit_spec env amount s :
  let user := msg_sender env in
  let p := position_of s user in
  let run := call (depositCollateral env amount) s in
  (amount = 0 -> run = (s, Failure InvalidAmount)) /\
  (0 < amount ->
   IERC20.balanceOf (collateralToken s) user < amount \/
     IERC20.allowance (collateralToken s) user < amount ->
     exists e, run = (s, Failure e)) /\
  (0 < amount ->
   amount <= IERC20.balanceOf (collateralToken s) user ->
   amount <= IERC20.allowance (collateralToken s) user ->
   Uint256.MAX < collateralAmount p + amount ->
     run = (s, Failure Panic)) /\
  (0 < amount ->
   amount <= IERC20.balanceOf (collateralToken s) user ->
   amount <= IERC20.allowance (collateralToken s) user ->
   collateralAmount p + amount <= Uint256.MAX ->
     let s' := deposited s env amount in
     run = (s', Success) /\
     position_of s' user
       = mkPosition (collateralAmount p + amount) (loanAmount p)
           (lastInterestUpdate p) (accumulatedInterest p) /\
     IERC20.pool (collateralToken s') = IERC20.pool (collateralToken s) + amount /\
     IERC20.balanceOf (collateralToken s') user
       = IERC20.balanceOf (collateralToken s) user - amount /\
     IERC20.allowance (collateralToken s') user
       = IERC20.allowance (collateralToken s) user - amount /\
     loanToken s' = loanToken s).
Proof.
  cbv zeta.
  destruct (deposit_cases env amount s) as [? Hr|? Hc Hr|? ? ? ? Hr|? ? ? ? Hr];
    try (apply call_Revert in Hr); try (apply call_Ok in Hr); rewrite Hr;
    (split_and!; intros; try done; try (exfalso; lia); try (by eexists)).
  unfold deposited. rewrite position_of_update_eq.
  split_and!; try done.
  - apply balanceOf_pulled_in.
  - unfold IERC20.allowance at 1; simpl. by rewrite lookup_insert_eq.
Qed.

(** ** Withdrawals *)

Lemma withdraw_blocked_by_loan env s :
  0 < loanAmount (position_of s (msg_sender env)) ->
  exists e d, withdrawCollateral env s = Revert e d.
Proof.
  intros Hl.
  destruct (withdraw_cases env s)
    as [? Hr|? ? ? Hr|s1 ? ? ? Hr|s1 ? ? ? Hr|? Hz ? Hr|? Hz ? Hr]; eauto;
    unfold debt in Hz; lia.
Qed.

(** X2.  [withdrawCollateral] fails without collateral; with a principal
    it fails whatever the time and the state (with ActiveDebt once the
    accrual went through and the debt fits in [uint256]); stored interest
    without a principal blocks it as well.  With collateral and no debt it
    zeroes the collateral and pays all of it out of the collateral pool to
    the caller, leaving the other fields and the loan token alone; it
    fails (with whatever error the refused token transfer produces) when
    the pool holds less than the recorded collateral.  Every failure
    leaves the state unchanged. *)
Theorem withdraw_spec env s :
  let user := msg_sender env in
  let p := position_of s user in
  let run := call (withdrawCollateral env) s in
  (collateralAmount p = 0 -> run = (s, Failure NoCollateralToWithdraw)) /\
  (0 < loanAmount p -> exists e, run = (s, Failure e)) /\
  (0 < collateralAmount p -> 0 < loanAmount p ->
   forall s1, _updateInterest env user s = Ok tt s1 ->
     debt (position_of s1 user) <= Uint256.MAX ->
     run = (s, Failure ActiveDebt)) /\
  (0 < collateralAmount p -> loanAmount p = 0 ->
   0 < accumulatedInterest p -> accumulatedInterest p <= Uint256.MAX ->
     run = (s, Failure ActiveDebt)) /\
  (0 < collateralAmount p -> debt p = 0 ->
   IERC20.pool (collateralToken s) < collateralAmount p ->
     exists e, run = (s, Failure e)) /\
  (0 < collateralAmount p -> debt p = 0 ->
   collateralAmount p <= IERC20.pool (collateralToken s) ->
     let s' := withdrawn s env in
     run = (s', Success) /\
     position_of s' user
       = mkPosition 0 (loanAmount p) (lastInterestUpdate p) (accumulatedInterest p) /\
     IERC20.pool (collateralToken s')
       = IERC20.pool (collateralToken s) - collateralAmount p /\
     IERC20.balanceOf (collateralToken s') user
       = IERC20.balanceOf (collateralToken s) user + collateralAmount p /\
     loanToken s' = loanToken s).
Proof.
  cbv zeta. split_and!.
  - intros Hc.
    destruct (withdraw_cases env s)
      as [? Hr|? ? ? Hr|s1 ? ? ? Hr|s1 ? ? ? Hr|? Hz ? Hr|? Hz ? Hr];
      try (exfalso; lia).
    by apply call_Revert in Hr.
  - intros Hl. destruct (withdraw_blocked_by_loan env s Hl) as (e & d & Hr).
    exists e. by apply call_Revert in Hr.
  - intros Hc Hl s1 Hu Hd.
    destruct (withdraw_cases env s)
      as [? Hr|? ? Hu' Hr|s2 ? Hv ? Hr|s2 ? Hv ? Hr|? Hz ? Hr|? Hz ? Hr];
      try (unfold debt in Hz); try (exfalso; lia); try congruence.
    + destruct Hv as [[? _]|[_ Hv]]; [exfalso; lia|].
      assert (s2 = s1) as -> by congruence. exfalso; lia.
    + by apply call_Revert in Hr.
  - intros Hc Hl Ha Hm.
    destruct (withdraw_cases env s)
      as [? Hr|? ? Hu' Hr|s2 ? Hv ? Hr|s2 ? Hv ? Hr|? Hz ? Hr|? Hz ? Hr];
      try (unfold debt in Hz); try (exfalso; lia).
    + destruct Hv as [[_ ->]|[? _]]; [|exfalso; lia].
      unfold debt in *. exfalso; lia.
    + by apply call_Revert in Hr.
  - intros Hc Hz Hp.
    destruct (withdraw_cases env s)
      as [? Hr|? ? Hu' Hr|s2 ? Hv ? Hr|s2 ? Hv ? Hr|? ? ? Hr|? ? ? Hr];
      try (exfalso; unfold debt in *; lia).
    + destruct Hv as [[_ ->]|[? _]]; exfalso; unfold debt in *; lia.
    + destruct Hv as [[_ ->]|[? _]]; exfalso; unfold debt in *; lia.
    + apply call_Revert in Hr. by eexists.
  - intros Hc Hz Hp.
    destruct (withdraw_cases env s)
      as [? Hr|? ? Hu' Hr|s2 ? Hv ? Hr|s2 ? Hv ? Hr|? ? ? Hr|? ? ? Hr];
      try (exfalso; unfold debt in *; lia).
    + destruct Hv as [[_ ->]|[? _]]; exfalso; unfold debt in *; lia.
    + destruct Hv as [[_ ->]|[? _]]; exfalso; unfold debt in *; lia.
    + apply call_Ok in Hr. rewrite Hr. unfold withdrawn.
      rewrite position_of_set_collateralToken, position_of_update_eq.
      split_and!; try done. apply balanceOf_paid_out.
Qed.

(** ** Authorisation of the owner operations *)

(** X3.  [fundContract] and [withdrawExcess] called by anyone but the owner
    fail with OwnableUnauthorizedAccount, whatever the amount, and change
    nothing.  Called by the owner, [fundContract] succeeds exactly when the
    owner's loan-token balance and allowance cover the amount, and then
    moves the amount from the owner's balance into the reserve; otherwise
    it fails, with whatever error the refused token transfer produces, and
    changes nothing. *)
Theorem owner_only env amount s :
  (msg_sender env <> owner s ->
     call (fundContract env amount) s = (s, Failure OwnableUnauthorizedAccount) /\
     call (withdrawExcess env amount) s = (s, Failure OwnableUnauthorizedAccount)) /\
  (msg_sender env = owner s ->
   IERC20.balanceOf (loanToken s) (msg_sender env) < amount \/
     IERC20.allowance (loanToken s) (msg_sender env) < amount ->
     exists e, call (fundContract env amount) s = (s, Failure e)) /\
  (msg_sender env = owner s ->
   amount <= IERC20.balanceOf (loanToken s) (msg_sender env) ->
   amount <= IERC20.allowance (loanToken s) (msg_sender env) ->
     let s' := set_loanToken s
                 (IERC20.pulled_in (msg_sender env) amount (loanToken s)) in
     call (fundContract env amount) s = (s', Success) /\
     IERC20.pool (loanToken s') = IERC20.pool (loanToken s) + amount /\
     IERC20.balanceOf (loanToken s') (msg_sender env)
       = IERC20.balanceOf (loanToken s) (msg_sender env) - amount).
Proof.
  cbv zeta. split_and!.
  - intros Hne. split.
    + destruct (fund_cases env amount s) as [? Hr|? ? Hr|? ? ? Hr]; try done.
      by apply call_Revert in Hr.
    + destruct (withdrawExcess_cases env amount s) as [? Hr|? ? Hr|? ? Hr];
        try done.
      by apply call_Revert in Hr.
  - intros Ho Hb.
    destruct (fund_cases env amount s) as [? Hr|? ? Hr|? ? ? Hr];
      try done; try (exfalso; lia).
    apply call_Revert in Hr. by eexists.
  - intros Ho Hb Ha.
    destruct (fund_cases env amount s) as [? Hr|? ? Hr|? ? ? Hr];
      try done; try (exfalso; lia).
    apply call_Ok in Hr. split_and!; try done. apply balanceOf_pulled_in.
Qed.

(** ** Failing repayments *)

(** X11.  With a principal, [repay] fails (with whatever error the refused
    token transfer produces) when the caller's loan-token balance or
    allowance is below the accrued total debt; it panics when the accrual
    panics or the total debt does not fit in [uint256].  In each case the
    state is unchanged: the stored position keeps its principal, interest
    and accrual time.  When balance and allowance cover the total debt it
    succeeds. *)
Theorem repay_failures env s :
  let user := msg_sender env in
  let run := call (repay env) s in
  0 < loanAmount (position_of s user) ->
  (forall e d, _updateInterest env user s = Revert e d ->
     run = (s, Failure Panic)) /\
  (forall s1, _updateInterest env user s = Ok tt s1 ->
     let total := debt (position_of s1 user) in
     (Uint256.MAX < total -> run = (s, Failure Panic)) /\
     (total <= Uint256.MAX ->
      IERC20.balanceOf (loanToken s) user < total \/
        IERC20.allowance (loanToken s) user < total ->
        exists e, run = (s, Failure e)) /\
     (total <= Uint256.MAX ->
      total <= IERC20.balanceOf (loanToken s) user ->
      total <= IERC20.allowance (loanToken s) user ->
        run = (repaid s1 env, Success))).
Proof.
  cbv zeta. intros Hl.
  destruct (repay_cases env s)
    as [? Hr|? Hu Hr|s1 ? Hu ? Hr|s1 t ? Hu ? ? Hr|s1 t ? Hu ? ? ? Hr];
    try (exfalso; lia); try subst t;
    try (apply call_Revert in Hr); try (apply call_Ok in Hr); rewrite Hr;
    try (pose proof (updateInterest_frame _ _ _ _ Hu) as (_ & Hlt & _));
    try rewrite Hlt in *;
    (split; [intros; congruence|]);
    intros s2 Hu2; try congruence;
    assert (s2 = s1) as -> by congruence;
    (split_and!; intros; try done; try (by eexists); exfalso; lia).
Qed.

Lemma repay_failures_witness :
  0 < loanAmount (position_of (borrowed_at 10) alice) /\
  exists e, call (repay (as_alice (10 + 200 * WEEK))) (borrowed_at 10)
              = (borrowed_at 10, Failure e).
Proof.
  assert (Hl : 0 < loanAmount (position_of (borrowed_at 10)
                                 (msg_sender (as_alice (10 + 200 * WEEK)))))
    by (by vm_compute).
  split; [exact Hl|].
  assert (Hu : _updateInterest (as_alice (10 + 200 * WEEK))
                 (msg_sender (as_alice (10 + 200 * WEEK))) (borrowed_at 10)
               = Ok tt (update_position (borrowed_at 10) alice
                          (mkPosition 1500 1000 (10 + 200 * WEEK) 10000)))
    by (by vm_compute).
  destruct (proj2 (repay_failures (as_alice (10 + 200 * WEEK)) (borrowed_at 10) Hl)
              _ Hu) as (_ & Hf & _).
  apply Hf; [by vm_compute|right; by vm_compute].
Defined.

(** ** An address without a position *)

(** X13.  For an address the mapping has no record of, [getUserData]
    returns three zeros at any time, and of the caller's operations
    [borrow] fails for want of collateral, [repay] for want of a loan and
    [withdrawCollateral] for want of collateral. *)
Theorem unknown_address env amount s :
  userPositions s !! msg_sender env = None ->
  getUserData env (msg_sender env) s = Ok (0, 0, 0) s /\
  (0 < amount -> call (borrow env amount) s = (s, Failure NoCollateral)) /\
  call (repay env) s = (s, Failure NoActiveLoan) /\
  call (withdrawCollateral env) s = (s, Failure NoCollateralToWithdraw).
Proof.
  intros Hnone.
  assert (Hp : position_of s (msg_sender env) = zero_position)
    by (unfold position_of; by rewrite Hnone).
  split_and!.
  - unfold getUserData. rewrite bind_load, Hp. reflexivity.
  - intros Ha.
    destruct (borrow_cases env amount s)
      as [? Hr|? Hc Hr|? Hc Hu Hr|s1 p1 ? Hc Hu ? Hr|s1 p1 ? Hc Hu ? ? ? Hr
         |s1 p1 ? Hc Hu ? ? ? Hr|s1 p1 ? Hc Hu ? ? ? Hr];
      try (rewrite Hp in Hc; simpl in Hc); try (exfalso; lia).
    by apply call_Revert in Hr.
  - destruct (repay_cases env s)
      as [? Hr|Hl Hu Hr|s1 Hl Hu ? Hr|s1 t Hl Hu ? ? Hr|s1 t Hl Hu ? ? ? Hr];
      try (rewrite Hp in Hl; simpl in Hl); try (exfalso; lia).
    by apply call_Revert in Hr.
  - destruct (withdraw_cases env s)
      as [? Hr|Hc ? ? Hr|s1 Hc ? ? Hr|s1 Hc ? ? Hr|Hc ? ? Hr|Hc ? ? Hr];
      try (rewrite Hp in Hc; simpl in Hc); try (exfalso; lia).
    by apply call_Revert in Hr.
Qed.

Lemma unknown_address_witness :
  userPositions genesis !! msg_sender (as_alice 7) = None /\
  getUserData (as_alice 7) alice genesis = Ok (0, 0, 0) genesis /\
  call (repay (as_alice 7)) genesis = (genesis, Failure NoActiveLoan).
Proof.
  assert (H : userPositions genesis !! msg_sender (as_alice 7) = None)
    by (by vm_compute).
  split; [exact H|].
  destruct (unknown_address (as_alice 7) 1 genesis H) as (Hg & _ & Hr & _).
  split; [exact Hg|exact Hr].
Defined.

(** ** Accrual in time *)

(** X5.  Accruing twice at the same timestamp is accruing once: after a
    successful [_updateInterest] a second call with the same
    [block.timestamp] succeeds and changes nothing. *)
Theorem updateInterest_idempotent env user s s1 :
  _updateInterest env user s = Ok tt s1 ->
  _updateInterest env user s1 = Ok tt s1.
Proof.
  intros H1.
  destruct (updateInterest_outcome env user s)
    as [p _ Hq|p k Hl Ht Hle Hk _ _ Hq|p k _ _ _ Hq];
    rewrite Hq in H1; inversion H1; subst s1; clear H1; [done|].
  destruct (updateInterest_outcome env user
              (update_position s user (accrued p (block_timestamp env) k)))
    as [p1 _ Hq1|p1 k1 _ _ _ Hk1 _ _ Hq1|p1 k1 _ _ Hc Hq1]; [done| |];
    exfalso; subst k1 p1; rewrite position_of_update_eq in *;
    unfold weeksElapsed, WEEK in *; simpl in *; lia.
Qed.

Lemma updateInterest_idempotent_witness :
  _updateInterest (as_alice (10 + WEEK)) alice (borrowed_at 10)
    = Ok tt (update_position (borrowed_at 10) alice
               (mkPosition 1500 1000 (10 + WEEK) 50)) /\
  _updateInterest (as_alice (10 + WEEK)) alice
      (update_position (borrowed_at 10) alice (mkPosition 1500 1000 (10 + WEEK) 50))
    = Ok tt (update_position (borrowed_at 10) alice
               (mkPosition 1500 1000 (10 + WEEK) 50)).
Proof.
  assert (H : _updateInterest (as_alice (10 + WEEK)) alice (borrowed_at 10)
    = Ok tt (update_position (borrowed_at 10) alice
               (mkPosition 1500 1000 (10 + WEEK) 50))) by (by vm_compute).
  split; [exact H|].
  exact (updateInterest_idempotent _ _ _ _ H).
Defined.

Lemma getUserData_eq env user s :
  getUserData env user s =
  match _updateInterest env user s with
  | Ok _ s' =>
      Ok (collateralAmount (position_of s user),
          loanAmount (position_of s user),
          accumulatedInterest (position_of s' user)) s
  | Revert e _ => Revert e s
  end.
Proof.
  unfold _updateInterest, getUserData, load, mbind, M_bind.
  set (p := position_of s user).
  destruct ((0 <? loanAmount p) && (0 <? lastInterestUpdate p)); [|done].
  destruct (Uint256.sub (block_timestamp env) (lastInterestUpdate p)) as [d|];
    simpl; [|done].
  destruct (0 <? d / WEEK); [|done].
  destruct (Uint256.mul (loanAmount p) INTEREST_RATE) as [x|]; simpl; [|done].
  destruct (Uint256.mul x (d / WEEK)) as [y|]; simpl; [|done].
  destruct (Uint256.add (accumulatedInterest p) (y / PRECISION)) as [a|];
    simpl; [|done].
  by rewrite !position_of_update_eq.
Qed.

(** The interest reported at [now], in closed form. *)
Lemma projected_interest_Some env user s i :
  projected_interest env user s = Some i ->
  let p := position_of s user in
  (i = accumulatedInterest p /\
   (loanAmount p = 0 \/ lastInterestUpdate p = 0 \/
    (lastInterestUpdate p <= block_timestamp env /\
     weeksElapsed p (block_timestamp env) = 0))) \/
  (i = accumulatedInterest p
       + newInterest (loanAmount p) (weeksElapsed p (block_timestamp env)) /\
   0 < loanAmount p /\ 0 < lastInterestUpdate p /\
   lastInterestUpdate p <= block_timestamp env /\
   0 < weeksElapsed p (block_timestamp env)).
Proof.
  unfold projected_interest. rewrite getUserData_eq. cbv zeta.
  destruct (updateInterest_outcome env user s)
    as [p Hc Hq|p k Hl Ht Hle Hk _ _ Hq|p k _ _ _ Hq];
    rewrite Hq; [| |done]; intros [= <-].
  - left. by subst p.
  - right. rewrite position_of_update_eq. by subst k p.
Qed.

(** X6.  The interest [getUserData] reports for a stored position never
    goes down as time passes: at [t1 <= t2] the figure for [t1] is at
    least the stored interest and at most the figure for [t2], and the two
    are equal when the same number of whole weeks has elapsed. *)
Theorem projected_interest_monotone env1 env2 user s i1 i2 :
  block_timestamp env1 <= block_timestamp env2 ->
  projected_interest env1 user s = Some i1 ->
  projected_interest env2 user s = Some i2 ->
  accumulatedInterest (position_of s user) <= i1 /\
  i1 <= i2 /\
  (weeksElapsed (position_of s user) (block_timestamp env1)
     = weeksElapsed (position_of s user) (block_timestamp env2) -> i1 = i2).
Proof.
  intros Hle H1 H2.
  apply projected_interest_Some in H1. apply projected_interest_Some in H2.
  cbv zeta in *.
  set (p := position_of s user) in *.
  assert (Hk : lastInterestUpdate p <= block_timestamp env1 ->
               weeksElapsed p (block_timestamp env1)
               <= weeksElapsed p (block_timestamp env2)).
  { intros. unfold weeksElapsed, WEEK. lia. }
  destruct H1 as [[-> H1]|(-> & ? & ? & ? & ?)];
    destruct H2 as [[-> H2]|(-> & ? & ? & ? & ?)].
  - split_and!; try done; lia.
  - split_and!; lia.
  - exfalso; lia.
  - pose proof (newInterest_mono (loanAmount p) _ _ (Hk ltac:(done))).
    split_and!; try lia. by intros ->.
Qed.

Lemma projected_interest_monotone_witness :
  block_timestamp (as_alice (10 + WEEK)) <= block_timestamp (as_alice (10 + 3 * WEEK)) /\
  projected_interest (as_alice (10 + WEEK)) alice (borrowed_at 10) = Some 50 /\
  projected_interest (as_alice (10 + 3 * WEEK)) alice (borrowed_at 10) = Some 150 /\
  50 <= 150.
Proof.
  assert (Ht : block_timestamp (as_alice (10 + WEEK))
               <= block_timestamp (as_alice (10 + 3 * WEEK))) by (by vm_compute).
  assert (H1 : projected_interest (as_alice (10 + WEEK)) alice (borrowed_at 10)
               = Some 50) by (by vm_compute).
  assert (H2 : projected_interest (as_alice (10 + 3 * WEEK)) alice (borrowed_at 10)
               = Some 150) by (by vm_compute).
  split; [exact Ht|]. split; [exact H1|]. split; [exact H2|].
  exact (proj1 (proj2 (projected_interest_monotone _ _ _ _ _ _ Ht H1 H2))).
Defined.

(** ** Invariants of the reachable states *)

Lemma reachable_borrowed_at_10 : reachable 10 (borrowed_at 10).
Proof.
  assert (H0 : reachable 0 genesis) by (by apply reachable_init).
  assert (H1 : reachable 10 (step (as_alice 10) (DepositCollateral 1500) genesis)).
  { apply (reachable_step 0 genesis (as_alice 10) (DepositCollateral 1500) H0).
    by vm_compute. }
  apply (reachable_step 10 _ (as_alice 10) (Borrow 1000) H1). by vm_compute.
Qed.

Lemma exec_Ok_accrual_time env op s s' :
  exec env op s = Ok tt s' ->
  let p := position_of s (msg_sender env) in
  let p' := position_of s' (msg_sender env) in
  lastInterestUpdate p' = lastInterestUpdate p \/
  lastInterestUpdate p' = block_timestamp env \/
  lastInterestUpdate p' = 0.
Proof.
  intros He. cbv zeta.
  destruct op as [amount|amount| | |amount|amount]; simpl in He.
  - apply deposit_Ok_inv in He as (_ & _ & ->). unfold deposited.
    rewrite position_of_update_eq. by left.
  - apply borrow_Ok_inv in He as (s1 & _ & _ & _ & _ & ->). unfold borrowed.
    rewrite position_of_set_loanToken, position_of_update_eq. right; by left.
  - apply repay_Ok_inv in He as (s1 & _ & _ & _ & ->). unfold repaid.
    rewrite position_of_update_eq. right; by right.
  - apply withdraw_Ok_inv in He as (_ & _ & ->). unfold withdrawn.
    rewrite position_of_set_collateralToken, position_of_update_eq. by left.
  - apply fund_Ok_inv in He as ->. by left.
  - apply withdrawExcess_Ok_inv in He as (_ & ->). by left.
Qed.

Lemma exec_Ok_collateralised env op s s' :
  exec env op s = Ok tt s' ->
  collateralised (position_of s (msg_sender env)) ->
  collateralised (position_of s' (msg_sender env)).
Proof.
  intros He Hc.
  destruct op as [amount|amount| | |amount|amount]; simpl in He.
  - apply deposit_Ok_inv in He as (_ & _ & ->). unfold deposited.
    rewrite position_of_update_eq.
    unfold collateralised, debt, maxBorrowable in *. simpl.
    etrans; [exact Hc|]. apply N.Div0.div_le_mono. lia.
  - apply borrow_Ok_inv in He as (s1 & _ & _ & Hcap & _ & ->).
    unfold borrowed. rewrite position_of_set_loanToken, position_of_update_eq.
    unfold collateralised, debt, maxBorrowable, drawn in *. simpl. lia.
  - apply repay_Ok_inv in He as (s1 & _ & _ & _ & ->).
    unfold repaid. rewrite position_of_update_eq.
    unfold collateralised, debt, cleared; simpl. lia.
  - apply withdraw_Ok_inv in He as (_ & Hz & ->). unfold withdrawn.
    rewrite position_of_set_collateralToken, position_of_update_eq.
    unfold collateralised, debt in *; simpl. lia.
  - by apply fund_Ok_inv in He as ->.
  - by apply withdrawExcess_Ok_inv in He as (_ & ->).
Qed.

Lemma accrual_time_bounded_aux t s user :
  reachable t s -> lastInterestUpdate (position_of s user) <= t.
Proof.
  intros Hreach. revert user.
  induction Hreach as [s Hempty|t s env op _ IH Ht]; intros user.
  - unfold position_of. rewrite Hempty, lookup_empty. simpl. lia.
  - unfold step, call.
    destruct (exec env op s) as [[] s'|e d] eqn:He; simpl;
      [|specialize (IH user); lia].
    destruct (decide (msg_sender env = user)) as [<-|Hne].
    + specialize (IH (msg_sender env)).
      destruct (exec_Ok_accrual_time _ _ _ _ He) as [->|[->| ->]]; lia.
    + rewrite (exec_Ok_other _ _ _ _ _ He Hne). specialize (IH user); lia.
Qed.

(** X8.  In a state reached at clock [t], no position has an accrual time
    after [t]: the last accrual never lies in the future, so the
    subtraction [block.timestamp - lastInterestUpdate] of a later call
    cannot underflow. *)
Theorem accrual_time_never_ahead t s user :
  reachable t s ->
  lastInterestUpdate (position_of s user) <= t /\
  forall env, t <= block_timestamp env ->
    Uint256.sub (block_timestamp env) (lastInterestUpdate (position_of s user))
      = Some (block_timestamp env - lastInterestUpdate (position_of s user)).
Proof.
  intros Hreach. pose proof (accrual_time_bounded_aux t s user Hreach) as Hle.
  split; [exact Hle|]. intros env Ht. apply sub_Some. lia.
Qed.

Lemma accrual_time_never_ahead_witness :
  reachable 10 (borrowed_at 10) /\
  lastInterestUpdate (position_of (borrowed_at 10) alice) <= 10.
Proof.
  split; [exact reachable_borrowed_at_10|].
  exact (proj1 (accrual_time_never_ahead 10 (borrowed_at 10) alice
                  reachable_borrowed_at_10)).
Defined.

(** X9.  In every reachable state the debt stored for a position,
    principal plus accumulated interest, is at most
    [floor(collateral * 100 / 150)]: interest enters storage only in a
    successful [borrow], which checks the bound, or [repay], which clears
    the debt, and collateral leaves only when there is no debt. *)
Theorem stored_debt_collateralised t s user :
  reachable t s ->
  loanAmount (position_of s user) + accumulatedInterest (position_of s user)
    <= collateralAmount (position_of s user) * PRECISION / COLLATERALIZATION_RATIO.
Proof.
  intros Hreach. change (collateralised (position_of s user)). revert user.
  induction Hreach as [s Hempty|t s env op _ IH Ht]; intros user.
  - unfold position_of. rewrite Hempty, lookup_empty. by vm_compute.
  - unfold step, call.
    destruct (exec env op s) as [[] s'|e d] eqn:He; simpl; [|apply IH].
    destruct (decide (msg_sender env = user)) as [<-|Hne].
    + by apply (exec_Ok_collateralised _ _ _ _ He).
    + rewrite (exec_Ok_other _ _ _ _ _ He Hne). apply IH.
Qed.

Lemma stored_debt_collateralised_witness :
  reachable 10 (borrowed_at 10) /\
  loanAmount (position_of (borrowed_at 10) alice)
    + accumulatedInterest (position_of (borrowed_at 10) alice)
    <= collateralAmount (position_of (borrowed_at 10) alice) * PRECISION
       / COLLATERALIZATION_RATIO.
Proof.
  split; [exact reachable_borrowed_at_10|].
  exact (stored_debt_collateralised 10 (borrowed_at 10) alice
           reachable_borrowed_at_10).
Defined.

(** ** The collateral pool covers the recorded collateral *)

Lemma total_collateral_update s user p :
  total_collateral (update_position s user p)
    + collateralAmount (position_of s user)
  = total_collateral s + collateralAmount p.
Proof.
  unfold total_collateral, position_of, update_position; simpl.
  assert (Hcomm : forall (m : gmap address UserPosition)
            (j1 j2 : address) (z1 z2 : UserPosition) (y : N),
            j1 ≠ j2 -> m !! j1 = Some z1 -> m !! j2 = Some z2 ->
            collateralAmount z1 + (collateralAmount z2 + y)
            = collateralAmount z2 + (collateralAmount z1 + y))
    by (intros; lia).
  destruct (userPositions s !! user) as [x|] eqn:Hx; simpl.
  - rewrite <- (insert_delete_eq (userPositions s) user p).
    rewrite map_fold_insert_L; [|apply Hcomm|apply lookup_delete_eq].
    rewrite (map_fold_delete_L _ _ user x (userPositions s)); [|apply Hcomm|done].
    lia.
  - rewrite map_fold_insert_L; [|apply Hcomm|done]. lia.
Qed.

Lemma collateral_le_total s user :
  collateralAmount (position_of s user) <= total_collateral s.
Proof.
  pose proof (total_collateral_update s user
                (set_collateralAmount 0 (position_of s user))) as H.
  simpl in H. lia.
Qed.

Lemma total_collateral_same s user p :
  collateralAmount p = collateralAmount (position_of s user) ->
  total_collateral (update_position s user p) = total_collateral s.
Proof. intros H. pose proof (total_collateral_update s user p). lia. Qed.

Lemma updateInterest_solvent env user s s1 :
  _updateInterest env user s = Ok tt s1 ->
  total_collateral s1 = total_collateral s /\
  collateralToken s1 = collateralToken s.
Proof.
  intros Hu.
  destruct (updateInterest_outcome env user s)
    as [q ? Hq|q j ? ? ? ? ? ? Hq|q j ? ? ? Hq];
    rewrite Hq in Hu; inversion Hu; subst; clear Hu; [done|].
  split; [|done]. by apply total_collateral_same.
Qed.

Lemma exec_solvent env op s s' :
  exec env op s = Ok tt s' -> solvent s -> solvent s'.
Proof.
  unfold solvent. intros He Hs.
  destruct op as [amount|amount| | |amount|amount]; simpl in He.
  - apply deposit_Ok_inv in He as (_ & _ & ->). unfold deposited.
    pose proof (total_collateral_update
      (set_collateralToken s
         (IERC20.pulled_in (msg_sender env) amount (collateralToken s)))
      (msg_sender env)
      (set_collateralAmount
         (collateralAmount (position_of s (msg_sender env)) + amount)
         (position_of s (msg_sender env)))) as H.
    rewrite position_of_set_collateralToken in H. simpl in H.
    change (total_collateral (set_collateralToken s ?t)) with (total_collateral s) in H.
    change (IERC20.pool (collateralToken (update_position ?a _ _)))
      with (IERC20.pool (collateralToken a)).
    simpl. lia.
  - apply borrow_Ok_inv in He as (s1 & Hu & _ & _ & _ & ->).
    apply updateInterest_solvent in Hu as [Ht Hc]. unfold borrowed.
    change (total_collateral (set_loanToken ?a _)) with (total_collateral a).
    rewrite total_collateral_same by done.
    change (collateralToken (set_loanToken (update_position s1 _ _) _))
      with (collateralToken s1).
    rewrite Ht, Hc. done.
  - apply repay_Ok_inv in He as (s1 & _ & Hu & _ & ->).
    apply updateInterest_solvent in Hu as [Ht Hc]. unfold repaid.
    rewrite total_collateral_same by done.
    change (total_collateral (set_loanToken ?a _)) with (total_collateral a).
    change (collateralToken (update_position (set_loanToken s1 _) _ _))
      with (collateralToken s1).
    rewrite Ht, Hc. done.
  - apply withdraw_Ok_inv in He as (_ & _ & ->). unfold withdrawn.
    pose proof (total_collateral_update s (msg_sender env)
      (set_collateralAmount 0 (position_of s (msg_sender env)))) as H.
    simpl in H.
    change (total_collateral (set_collateralToken ?a _)) with (total_collateral a).
    simpl. lia.
  - by apply fund_Ok_inv in He as ->.
  - by apply withdrawExcess_Ok_inv in He as (_ & ->).
Qed.

Lemma step_solvent env op s : solvent s -> solvent (step env op s).
Proof.
  intros Hs. unfold step, call.
  destruct (exec env op s) as [[] s'|e d] eqn:He; [|done].
  by apply (exec_solvent _ _ _ _ He).
Qed.

Lemma reachable_solvent t s : reachable t s -> solvent s.
Proof.
  induction 1 as [s Hempty|t s env op _ IH _]; [|by apply step_solvent].
  unfold solvent, total_collateral. rewrite Hempty, map_fold_empty. lia.
Qed.

Lemma withdraw_when_solvent env s :
  solvent s ->
  0 < collateralAmount (position_of s (msg_sender env)) ->
  debt (position_of s (msg_sender env)) = 0 ->
  call (withdrawCollateral env) s = (withdrawn s env, Success).
Proof.
  intros Hs Hc Hz.
  pose proof (collateral_le_total s (msg_sender env)). unfold solvent in Hs.
  destruct (withdraw_cases env s)
    as [? Hr|? ? Hu' Hr|s2 ? Hv ? Hr|s2 ? Hv ? Hr|? ? ? Hr|? ? ? Hr];
    try (exfalso; unfold debt in *; lia).
  - destruct Hv as [[_ ->]|[? _]]; exfalso; unfold debt in *; lia.
  - destruct Hv as [[_ ->]|[? _]]; exfalso; unfold debt in *; lia.
  - by apply call_Ok in Hr.
Qed.

(** X7.  In every reachable state the collateral tokens held by the
    contract cover the collateral recorded over all positions, so a
    participant with collateral and no stored debt can always withdraw:
    [withdrawCollateral] succeeds, at any time, and pays out the whole
    recorded collateral. *)
Theorem collateral_always_withdrawable t s env :
  reachable t s ->
  0 < collateralAmount (position_of s (msg_sender env)) ->
  debt (position_of s (msg_sender env)) = 0 ->
  total_collateral s <= IERC20.pool (collateralToken s) /\
  call (withdrawCollateral env) s = (withdrawn s env, Success) /\
  IERC20.balanceOf (collateralToken (withdrawn s env)) (msg_sender env)
    = IERC20.balanceOf (collateralToken s) (msg_sender env)
      + collateralAmount (position_of s (msg_sender env)) /\
  collateralAmount (position_of (withdrawn s env) (msg_sender env)) = 0.
Proof.
  intros Hreach Hc Hz. pose proof (reachable_solvent _ _ Hreach) as Hs.
  split_and!.
  - exact Hs.
  - by apply withdraw_when_solvent.
  - apply balanceOf_paid_out.
  - unfold withdrawn.
    by rewrite position_of_set_collateralToken, position_of_update_eq.
Qed.

Lemma reachable_saver_ledger : reachable 0 saver_ledger.
Proof.
  apply (reachable_step 0 genesis (as_alice 0) (DepositCollateral 500)).
  - by apply reachable_init.
  - by vm_compute.
Qed.

Lemma collateral_always_withdrawable_witness :
  reachable 0 saver_ledger /\
  0 < collateralAmount (position_of saver_ledger alice) /\
  debt (position_of saver_ledger alice) = 0 /\
  call (withdrawCollateral (as_alice 99)) saver_ledger
    = (withdrawn saver_ledger (as_alice 99), Success).
Proof.
  assert (Hc : 0 < collateralAmount (position_of saver_ledger
                                       (msg_sender (as_alice 99))))
    by (by vm_compute).
  assert (Hz : debt (position_of saver_ledger (msg_sender (as_alice 99))) = 0)
    by (by vm_compute).
  split; [exact reachable_saver_ledger|]. split; [exact Hc|]. split; [exact Hz|].
  exact (proj1 (proj2 (collateral_always_withdrawable 0 saver_ledger (as_alice 99)
                         reachable_saver_ledger Hc Hz))).
Defined.

(** ** Sequences of operations *)

(** X12.  After a successful [repay] in a reachable state the caller's
    collateral is free: a [withdrawCollateral] of the same caller, at any
    later or earlier timestamp, succeeds and returns the whole collateral
    the position held before the repayment. *)
Theorem repay_then_withdraw t s env now' s1 :
  let user := msg_sender env in
  let env' := {| msg_sender := user; block_timestamp := now' |} in
  reachable t s ->
  0 < collateralAmount (position_of s user) ->
  call (repay env) s = (s1, Success) ->
  call (withdrawCollateral env') s1 = (withdrawn s1 env', Success) /\
  IERC20.balanceOf (collateralToken (withdrawn s1 env')) user
    = IERC20.balanceOf (collateralToken s) user
      + collateralAmount (position_of s user).
Proof.
  cbv zeta. intros Hreach Hc [[] Hr]%call_Success_inv.
  pose proof (exec_solvent env Repay _ _ Hr (reachable_solvent _ _ Hreach)) as Hs.
  apply repay_Ok_inv in Hr as (s2 & _ & Hu & _ & ->).
  apply updateInterest_frame in Hu as (Hct & _ & _ & Hcl & _).
  assert (Hp : position_of (repaid s2 env) (msg_sender env)
               = cleared (position_of s2 (msg_sender env)))
    by (unfold repaid; by rewrite position_of_update_eq).
  split.
  - apply withdraw_when_solvent; simpl; rewrite ?Hp; simpl; [done|lia|done].
  - unfold withdrawn, set_collateralToken. simpl.
    rewrite balanceOf_paid_out, Hp. simpl. rewrite Hcl.
    change (collateralToken (repaid s2 env)) with (collateralToken s2).
    by rewrite Hct.
Qed.

Lemma repay_then_withdraw_witness :
  reachable 10 (borrowed_at 10) /\
  0 < collateralAmount (position_of (borrowed_at 10) alice) /\
  call (repay (as_alice (10 + WEEK))) (borrowed_at 10)
    = (step (as_alice (10 + WEEK)) Repay (borrowed_at 10), Success) /\
  call (withdrawCollateral (as_alice (20 + WEEK)))
       (step (as_alice (10 + WEEK)) Repay (borrowed_at 10))
    = (withdrawn (step (as_alice (10 + WEEK)) Repay (borrowed_at 10))
         (as_alice (20 + WEEK)), Success).
Proof.
  assert (Hc : 0 < collateralAmount (position_of (borrowed_at 10)
                                       (msg_sender (as_alice (10 + WEEK)))))
    by (by vm_compute).
  assert (Hr : call (repay (as_alice (10 + WEEK))) (borrowed_at 10)
    = (step (as_alice (10 + WEEK)) Repay (borrowed_at 10), Success))
    by (by vm_compute).
  split; [exact reachable_borrowed_at_10|]. split; [exact Hc|]. split; [exact Hr|].
  exact (proj1 (repay_then_withdraw 10 (borrowed_at 10) (as_alice (10 + WEEK))
                  (20 + WEEK) _ reachable_borrowed_at_10 Hc Hr)).
Defined.

(** X10.  A draw followed by the caller's repayment never costs the
    reserve: the repayment takes at least the amount drawn, so the
    loan-token reserve ends no lower and the caller's balance no higher
    than before the draw, and the sum of the two is unchanged. *)
Theorem borrow_then_repay env now' amount s s1 s2 :
  let user := msg_sender env in
  let env' := {| msg_sender := user; block_timestamp := now' |} in
  call (borrow env amount) s = (s1, Success) ->
  call (repay env') s1 = (s2, Success) ->
  IERC20.pool (loanToken s) <= IERC20.pool (loanToken s2) /\
  IERC20.balanceOf (loanToken s2) user <= IERC20.balanceOf (loanToken s) user /\
  IERC20.pool (loanToken s2) + IERC20.balanceOf (loanToken s2) user
    = IERC20.pool (loanToken s) + IERC20.balanceOf (loanToken s) user /\
  loanAmount (position_of s2 user) = 0 /\
  accumulatedInterest (position_of s2 user) = 0.
Proof.
  cbv zeta. intros [[] Hb]%call_Success_inv [[] Hr]%call_Success_inv.
  apply borrow_Ok_inv in Hb as (sa & Hua & Ha & _ & Hp & ->).
  apply repay_Ok_inv in Hr as (sb & _ & Hub & Hbal & ->). simpl in *.
  destruct (updateInterest_frame _ _ _ _ Hua) as (_ & Hlt & _).
  destruct (updateInterest_frame _ _ _ _ Hub) as (_ & Hlt' & _ & _ & Hl & _).
  unfold borrowed in Hl, Hlt'.
  rewrite position_of_set_loanToken, position_of_update_eq in Hl. simpl in Hl.
  simpl in Hlt'.
  unfold repaid. rewrite position_of_update_eq.
  change (loanToken (update_position (set_loanToken sb ?t) _ _)) with t.
  rewrite balanceOf_pulled_in. simpl.
  rewrite Hlt' in *. rewrite balanceOf_paid_out in *. simpl.
  rewrite Hlt in *. unfold debt in *.
  split_and!; try done; lia.
Qed.

Lemma borrow_then_repay_witness :
  call (borrow (as_alice 10) 1000)
       (step (as_alice 10) (DepositCollateral 1500) genesis)
    = (borrowed_at 10, Success) /\
  call (repay (as_alice (10 + WEEK))) (borrowed_at 10)
    = (step (as_alice (10 + WEEK)) Repay (borrowed_at 10), Success) /\
  IERC20.pool (loanToken (step (as_alice 10) (DepositCollateral 1500) genesis))
    <= IERC20.pool (loanToken (step (as_alice (10 + WEEK)) Repay (borrowed_at 10))).
Proof.
  assert (Hb : call (borrow (as_alice 10) 1000)
       (step (as_alice 10) (DepositCollateral 1500) genesis)
    = (borrowed_at 10, Success)) by (by vm_compute).
  assert (Hr : call (repay (as_alice (10 + WEEK))) (borrowed_at 10)
    = (step (as_alice (10 + WEEK)) Repay (borrowed_at 10), Success))
    by (by vm_compute).
  split; [exact Hb|]. split; [exact Hr|].
  exact (proj1 (borrow_then_repay (as_alice 10) (10 + WEEK) 1000 _ _ _ Hb Hr)).
Defined.

(** ** The projection at the current time *)

Lemma getUserData_skipped env user s :
  let p := position_of s user in
  loanAmount p = 0 \/ lastInterestUpdate p = 0 \/
    (lastInterestUpdate p <= block_timestamp env /\
     weeksElapsed p (block_timestamp env) = 0) ->
  getUserData env user s
    = Ok (collateralAmount p, loanAmount p, accumulatedInterest p) s.
Proof.
  cbv zeta. intros Hc. rewrite getUserData_eq.
  destruct (updateInterest_outcome env user s)
    as [q _ Hq|q k Hl Ht Hle Hk _ _ Hq|q k ? ? Hp Hq];
    rewrite Hq; [done| |]; exfalso; subst k q; lia.
Qed.

(** X14.  In a state reached at clock [t], [getUserData] called at any
    [now >= t] returns (it does not revert) whenever the interest due
    fits in [uint256]: it reports the stored collateral and principal,
    and as interest the stored interest plus
    [floor(principal * 5 * weeks / 100)] for the whole weeks since the
    last accrual -- nothing when the accrual time is zero. *)
Theorem getUserData_closed_form t s env user :
  let p := position_of s user in
  let k := weeksElapsed p (block_timestamp env) in
  reachable t s ->
  t <= block_timestamp env ->
  loanAmount p * INTEREST_RATE * k <= Uint256.MAX ->
  accumulatedInterest p + newInterest (loanAmount p) k <= Uint256.MAX ->
  getUserData env user s
    = Ok (collateralAmount p, loanAmount p,
          accumulatedInterest p
          + (if lastInterestUpdate p =? 0 then 0
             else newInterest (loanAmount p) k)) s.
Proof.
  cbv zeta. intros Hreach Ht Hm Ha.
  pose proof (accrual_time_bounded_aux t s user Hreach) as Hle.
  rewrite getUserData_eq.
  destruct (updateInterest_outcome env user s)
    as [q Hc Hq|q k Hl Hlast Hle' Hk _ _ Hq|q k ? ? Hp Hq];
    rewrite Hq; subst q; try subst k.
  - destruct (N.eqb_spec (lastInterestUpdate (position_of s user)) 0);
      [by rewrite N.add_0_r|].
    destruct Hc as [Hc|[Hc|[_ Hc]]]; [|done|].
    + rewrite Hc. unfold newInterest. simpl. by rewrite N.add_0_r.
    + rewrite Hc. unfold newInterest. rewrite N.mul_0_r. simpl.
      by rewrite N.add_0_r.
  - rewrite position_of_update_eq. simpl.
    destruct (N.eqb_spec (lastInterestUpdate (position_of s user)) 0);
      [exfalso; lia|done].
  - exfalso. lia.
Qed.

Lemma getUserData_closed_form_witness :
  reachable 10 (borrowed_at 10) /\
  10 <= block_timestamp (as_alice (10 + 2 * WEEK)) /\
  getUserData (as_alice (10 + 2 * WEEK)) alice (borrowed_at 10)
    = Ok (1500, 1000, 100) (borrowed_at 10).
Proof.
  assert (Ht : 10 <= block_timestamp (as_alice (10 + 2 * WEEK))) by (by vm_compute).
  split; [exact reachable_borrowed_at_10|]. split; [exact Ht|].
  rewrite (getUserData_closed_form 10 (borrowed_at 10) (as_alice (10 + 2 * WEEK))
             alice reachable_borrowed_at_10 Ht); by vm_compute.
Defined.

(** X15.  A successful [borrow] restarts the accrual clock: during the
    week that follows it ([now <= t < now + one week]) [getUserData]
    reports for the caller exactly the interest stored by that call, so
    the principal, the new draw included, bears no interest before a whole
    week has passed since the draw. *)
Theorem no_interest_in_week_after_draw env amount s s' env2 :
  let user := msg_sender env in
  call (borrow env amount) s = (s', Success) ->
  block_timestamp env <= block_timestamp env2 ->
  block_timestamp env2 < block_timestamp env + WEEK ->
  lastInterestUpdate (position_of s' user) = block_timestamp env /\
  getUserData env2 user s'
    = Ok (collateralAmount (position_of s' user),
          loanAmount (position_of s' user),
          accumulatedInterest (position_of s' user)) s'.
Proof.
  cbv zeta. intros [[] Hb]%call_Success_inv Hle Hlt.
  apply borrow_Ok_inv in Hb as (s1 & _ & _ & _ & _ & ->).
  assert (Hlast : lastInterestUpdate
                    (position_of (borrowed s1 env amount) (msg_sender env))
                  = block_timestamp env).
  { unfold borrowed.
    by rewrite position_of_set_loanToken, position_of_update_eq. }
  split; [exact Hlast|].
  apply getUserData_skipped. right; right. rewrite Hlast. split; [done|].
  unfold weeksElapsed. rewrite Hlast. unfold WEEK in *. lia.
Qed.

Lemma no_interest_in_week_after_draw_witness :
  call (borrow (as_alice 10) 1000)
       (step (as_alice 10) (DepositCollateral 1500) genesis)
    = (borrowed_at 10, Success) /\
  block_timestamp (as_alice 10) <= block_timestamp (as_alice (9 + WEEK)) /\
  block_timestamp (as_alice (9 + WEEK)) < block_timestamp (as_alice 10) + WEEK /\
  getUserData (as_alice (9 + WEEK)) alice (borrowed_at 10)
    = Ok (collateralAmount (position_of (borrowed_at 10) alice),
          loanAmount (position_of (borrowed_at 10) alice),
          accumulatedInterest (position_of (borrowed_at 10) alice)) (borrowed_at 10).
Proof.
  assert (Hb : call (borrow (as_alice 10) 1000)
       (step (as_alice 10) (DepositCollateral 1500) genesis)
    = (borrowed_at 10, Success)) by (by vm_compute).
  assert (H1 : block_timestamp (as_alice 10) <= block_timestamp (as_alice (9 + WEEK)))
    by (by vm_compute).
  assert (H2 : block_timestamp (as_alice (9 + WEEK)) < block_timestamp (as_alice 10) + WEEK)
    by (by vm_compute).
  split; [exact Hb|]. split; [exact H1|]. split; [exact H2|].
  exact (proj2 (no_interest_in_week_after_draw (as_alice 10) 1000 _ _
                  (as_alice (9 + WEEK)) Hb H1 H2)).
Defined.
